(** * rpncalc: a shallow embedding of src/rpncalc.c and src/rpncalc.cc

    Both programs are modelled: the C program (segmented stack
    [struct stack], one token per input line, [parse_buf]) and the C++
    program ([std::list<double>] stack, several space-separated tokens per
    line, [parse_token] and [exec_line]).  Doubles are Rocq's primitive
    binary64 floats, so [x == 0], [x + y], [y / x] are the IEEE operations
    the programs execute. *)

From Stdlib Require Import String Ascii List ZArith Bool Lia.
From Stdlib Require Import Floats Uint63.
Import ListNotations.

Open Scope string_scope.

(** ** Characters and the validity checks shared by both programs *)

Module Tok.

(** [isdigit] in the C locale. *)
Definition isdigit (c : ascii) : bool :=
  let n := nat_of_ascii c in (48 <=? n)%nat && (n <=? 57)%nat.

Definition is_op_char (c : ascii) : bool :=
  (c =? "+")%char || (c =? "-")%char || (c =? "*")%char || (c =? "/")%char.

(** [is_valid_double]: the loop over the characters with the flag [p]
    recording whether a dot was already skipped. *)
Fixpoint is_valid_double_loop (p : bool) (buf : string) : bool :=
  match buf with
  | EmptyString => true
  | String c rest =>
      if (c =? ".")%char && negb p then is_valid_double_loop true rest
      else if negb (isdigit c) then false
      else is_valid_double_loop p rest
  end.

Definition is_valid_double (buf : string) : bool := is_valid_double_loop false buf.

(** [is_valid_int buf len]: the first [len] characters are digits. *)
Fixpoint is_valid_int (buf : string) (len : nat) : bool :=
  match len, buf with
  | O, _ => true
  | S n, String c rest => isdigit c && is_valid_int rest n
  | S _, EmptyString => true  (* not reached: len <= strlen buf *)
  end.

(** first and last character of a non-empty token *)
Definition front (s : string) : ascii :=
  match s with EmptyString => "000"%char | String c _ => c end.

Definition at_index (s : string) (i : nat) : ascii :=
  match String.get i s with Some c => c | None => "000"%char end.

End Tok.

(** ** Decimal conversion: [strtod], [std::stod], [strtol], [std::stol]

    These are C and C++ library functions, modelled on the strings the
    programs hand them: an optional sign followed by digits (and, for the
    floating conversions, at most one dot), as checked by [is_valid_double]
    and [is_valid_int] just before the call. *)

Module Conv.
Import Tok.

Definition digit_val (c : ascii) : Z := Z.of_nat (nat_of_ascii c) - 48.

(** Scan digits with at most one dot, stopping at the first other
    character: mantissa, number of fractional digits, number of digits. *)
Fixpoint scan (dot : bool) (s : string) (m f : Z) (nd : nat) : Z * Z * nat :=
  match s with
  | EmptyString => (m, f, nd)
  | String c rest =>
      if (c =? ".")%char && negb dot then scan true rest m f nd
      else if isdigit c then
        scan dot rest (10 * m + digit_val c) (if dot then f + 1 else f) (S nd)
      else (m, f, nd)
  end.

(** optional sign *)
Definition sign (s : string) : bool * string :=
  match s with
  | String c rest =>
      if (c =? "-")%char then (true, rest)
      else if (c =? "+")%char then (false, rest)
      else (false, s)
  | EmptyString => (false, s)
  end.

(** The correctly rounded (to nearest even) binary64 value of
    [(-1)^neg * m / 10^f], computed by the exact division of [SpecFloat]. *)
Definition round_decimal (neg : bool) (m f : Z) : float :=
  match m with
  | Zpos pm =>
      SF2Prim (SFdiv prec emax (S754_finite neg pm 0)
                                (S754_finite false (Z.to_pos (10 ^ f)) 0))
  | _ => if neg then neg_zero else zero
  end.

(** [strtod]: with no digit at all there is no conversion and the result
    is [0.0]. *)
Definition strtod (s : string) : float :=
  let '(neg, body) := sign s in
  let '(m, f, nd) := scan false body 0 0 O in
  match nd with O => zero | _ => round_decimal neg m f end.

Inductive exn := invalid_argument | out_of_range.

(** [std::stod] calls [strtod]; it throws [invalid_argument] when no
    conversion is performed and [out_of_range] when [strtod] reports
    [ERANGE]: overflow to infinity, or a non-zero decimal whose result lies
    below the smallest normal double. *)
Definition stod (s : string) : exn + float :=
  let '(neg, body) := sign s in
  let '(m, f, nd) := scan false body 0 0 O in
  match nd with
  | O => inl invalid_argument
  | _ =>
      let v := round_decimal neg m f in
      if is_infinity v then inl out_of_range
      else if negb (m =? 0)%Z && (abs v <? 0x1p-1022)%float then inl out_of_range
      else inr v
  end.

(** digits of a [strtol]/[stol] argument; the scan stops at the first
    non-digit, so for ["12+"] the value is [12] *)
Fixpoint scan_int (s : string) (m : Z) (nd : nat) : Z * nat :=
  match s with
  | String c rest => if isdigit c then scan_int rest (10 * m + digit_val c) (S nd) else (m, nd)
  | EmptyString => (m, nd)
  end.

Definition LONG_MAX : Z := 2 ^ 63 - 1.

(** [strtol(buf, NULL, 10)] on a string of digits followed by an operator
    character: clamps to [LONG_MAX] on overflow. *)
Definition strtol (s : string) : Z :=
  let '(m, _) := scan_int s 0 O in Z.min m LONG_MAX.

(** [std::stol]: throws [out_of_range] on overflow; [invalid_argument]
    without digits. *)
Definition stol (s : string) : exn + Z :=
  let '(m, nd) := scan_int s 0 O in
  match nd with
  | O => inl invalid_argument
  | _ => if (m <=? LONG_MAX)%Z then inr m else inl out_of_range
  end.

(** conversion of a [long] (or [size_t]) to [int]: reduction modulo 2^32
    into the signed range (what GCC does, and C++20 prescribes). *)
Definition to_int (z : Z) : Z :=
  let r := (z mod 2 ^ 32)%Z in if (r <? 2 ^ 31)%Z then r else (r - 2 ^ 32)%Z.

Definition INT_MAX : Z := 2 ^ 31 - 1.

End Conv.

(** ** Commands *)

Inductive rpn_op := SUM | SUB | MUL | DIV.

(** [enum rpn_type]: the C program has [EXIT]; the C++ program's enum is
    [{ DOUBLE, OP, DROP, CLEAR }] and the constructor [EXIT] is never
    produced by its [parse_token]. *)
Inductive rpn_type := DOUBLE | OP | DROP | CLEAR | EXIT.

(** [struct rpn_cmd].  The union [data] is modelled by two fields: every
    path that sets [t] to [DOUBLE] writes [val] and every path that sets
    [t] to [OP] writes [op], and the programs read only the member [t]
    selects. *)
Record rpn_cmd := mk_cmd { val : float; op : rpn_op; op_times : Z; t : rpn_type }.

Definition set_t (cmd : rpn_cmd) (ty : rpn_type) : rpn_cmd :=
  mk_cmd cmd.(val) cmd.(op) cmd.(op_times) ty.

Definition op_of_char (c : ascii) : option rpn_op :=
  if (c =? "+")%char then Some SUM
  else if (c =? "-")%char then Some SUB
  else if (c =? "*")%char then Some MUL
  else if (c =? "/")%char then Some DIV
  else None.

(** [cmd_op]: the switch leaves [data.op] unchanged on another character. *)
Definition cmd_op (cmd : rpn_cmd) (times : Z) (f_char_buf : ascii) : rpn_cmd :=
  mk_cmd cmd.(val)
         (match op_of_char f_char_buf with Some o => o | None => cmd.(op) end)
         times OP.

Definition cmd_double_val (cmd : rpn_cmd) (v : float) : rpn_cmd :=
  mk_cmd v cmd.(op) cmd.(op_times) DOUBLE.

(** first entry of the command table whose name equals the token *)
Fixpoint lookup_cmd (tbl : list (string * rpn_type)) (buf : string) : option rpn_type :=
  match tbl with
  | [] => None
  | (name, ty) :: rest => if String.eqb buf name then Some ty else lookup_cmd rest buf
  end.

(** ** The C classifier: [parse_buf] of src/rpncalc.c *)

Module C.
Import Tok Conv.

Definition rpn_commands : list (string * rpn_type) :=
  [("quit", EXIT); ("drop", DROP); ("clear", CLEAR)].

Definition cmd_double (cmd : rpn_cmd) (buf : string) : rpn_cmd :=
  cmd_double_val cmd (strtod buf).

(** [parse_buf buf cmd]: the return value and the command after the call
    ([cmd] is written through a pointer).  [buf] is the contents of the C
    string (no NUL inside). *)
Definition parse_buf (buf : string) (cmd : rpn_cmd) : Z * rpn_cmd :=
  let buf_len := String.length buf in
  if (buf_len =? 0)%nat then (-1, cmd)%Z
  else match lookup_cmd rpn_commands buf with
  | Some ty => (0%Z, set_t cmd ty)
  | None =>
    let c := front buf in
    if (c =? "+")%char || (c =? "-")%char then
      if (1 <? buf_len)%nat then
        if is_valid_double (substring 1 (buf_len - 1) buf)
        then (0%Z, cmd_double cmd buf)
        else (-1, cmd)%Z
      else (0%Z, cmd_op cmd 1 c)
    else if (c =? "*")%char || (c =? "/")%char then
      if (1 <? buf_len)%nat then (-1, cmd)%Z
      else (0%Z, cmd_op cmd 1 c)
    else
      let last_char_index := (buf_len - 1)%nat in
      if is_valid_double (substring 0 (last_char_index + 1) buf)
      then (0%Z, cmd_double cmd buf)
      else if is_op_char (at_index buf last_char_index)
              && is_valid_int buf last_char_index
      then (0%Z, cmd_op cmd (to_int (strtol buf)) (at_index buf last_char_index))
      else (0%Z, cmd)
  end.

End C.

(** ** The C++ classifier: [parse_token] of src/rpncalc.cc *)

Module CC.
Import Tok Conv.

Definition rpn_commands : list (string * rpn_type) :=
  [("drop", DROP); ("clear", CLEAR)].

(** [std::stod] and [std::stol] may throw; an exception escapes
    [parse_token] (nothing in the program catches it). *)
Definition cmd_double (cmd : rpn_cmd) (buf : string) : exn + rpn_cmd :=
  match stod buf with
  | inl e => inl e
  | inr v => inr (cmd_double_val cmd v)
  end.

Definition ret (r : Z) (cmd : rpn_cmd) : exn + (Z * rpn_cmd) := inr (r, cmd).

Definition parse_token (tok : string) (cmd : rpn_cmd) : exn + (Z * rpn_cmd) :=
  let tok_len := String.length tok in
  if (tok_len =? 0)%nat then ret (-1) cmd
  else match lookup_cmd rpn_commands tok with
  | Some ty => ret 0 (set_t cmd ty)
  | None =>
    let c := front tok in
    if (c =? "+")%char || (c =? "-")%char then
      if (1 <? tok_len)%nat then
        if is_valid_double (substring 1 (tok_len - 1) tok)
        then match cmd_double cmd tok with inl e => inl e | inr cmd' => ret 0 cmd' end
        else ret (-1) cmd
      else ret 0 (cmd_op cmd 1 c)
    else if (c =? "*")%char || (c =? "/")%char then
      if (1 <? tok_len)%nat then ret (-1) cmd
      else ret 0 (cmd_op cmd 1 c)
    else
      let last_char_index := (tok_len - 1)%nat in
      if is_valid_double (substring 0 (last_char_index + 1) tok)
      then match cmd_double cmd tok with inl e => inl e | inr cmd' => ret 0 cmd' end
      else if is_op_char (at_index tok last_char_index)
              && is_valid_int tok last_char_index
      then match stol tok with
           | inl e => inl e
           | inr times => ret 0 (cmd_op cmd (to_int times) (at_index tok last_char_index))
           end
      else ret (-1) cmd
  end.

End CC.

(** ** The C++ evaluator: [exec_op] and [exec_line] of src/rpncalc.cc *)

Module CCEval.
Import Tok Conv.

(** [std::list<double>], front to back; [back] is the top of the stack.
    [back] and [pop_back] on an empty list are undefined behaviour
    ([None]). *)
Definition back (s : list float) : option float :=
  match rev s with [] => None | x :: _ => Some x end.

Definition pop_back (s : list float) : option (list float) :=
  match s with [] => None | _ => Some (removelast s) end.

Definition push_back (s : list float) (x : float) : list float := s ++ [x].

Definition div_zero_msg : string := "error - division by zero".

(** [size_t] arithmetic [s->size() - 1] converted to the [int] it is
    assigned to *)
Definition size_minus_1 (s : list float) : Z :=
  to_int ((Z.of_nat (length s) - 1) mod 2 ^ 64)%Z.

(** The [for] loop of [exec_op], [n] iterations left.  The result is the
    stack on return and the lines printed; [None] is undefined
    behaviour. *)
Fixpoint exec_loop (n : nat) (op : rpn_op) (s : list float)
  : option (list float * list string) :=
  match n with
  | O => Some (s, [])
  | S n' =>
      if (length s <=? 1)%nat then Some (s, [])
      else match back s, pop_back s with
      | Some x, Some s1 =>
          match back s1, pop_back s1 with
          | Some y, Some s2 =>
              match op with
              | SUM => exec_loop n' op (push_back s2 (x + y)%float)
              | SUB => exec_loop n' op (push_back s2 (y - x)%float)
              | MUL => exec_loop n' op (push_back s2 (x * y)%float)
              | DIV =>
                  if (x =? zero)%float then Some (s2, [div_zero_msg])
                  else exec_loop n' op (push_back s2 (y / x)%float)
              end
          | _, _ => None
          end
      | _, _ => None
      end
  end.

Definition exec_op (s : list float) (op : rpn_op) (times : Z)
  : option (list float * list string) :=
  let times := if (times =? 0)%Z then size_minus_1 s else times in
  exec_loop (Z.to_nat times) op s.

(** Tokens of [exec_line]: the pieces between single spaces, as the
    [find_first_of(" ", current)] / [substr] loop cuts them ([k] spaces
    give [k + 1] pieces, some possibly empty). *)
Fixpoint split_sp (buf : string) (cur : string) : list string :=
  match buf with
  | EmptyString => [cur]
  | String c rest =>
      if (c =? " ")%char then cur :: split_sp rest ""
      else split_sp rest (cur ++ String c "")
  end.

Definition tokens (buf : string) : list string := split_sp buf "".

(** the [switch(cmd.t)] of [exec_line] *)
Definition dispatch (cmd : rpn_cmd) (s : list float)
  : option (list float * list string) :=
  match cmd.(t) with
  | DOUBLE => Some (push_back s cmd.(val), [])
  | OP =>
      if (cmd.(op_times) =? 0)%Z then exec_op s cmd.(op) (size_minus_1 s)
      else exec_op s cmd.(op) cmd.(op_times)
  | DROP => match pop_back s with Some s' => Some (s', []) | None => None end
  | CLEAR => Some ([], [])
  | EXIT => Some (s, [])
  end.

(** What a call of [exec_line] does: return a value with the final stack
    and the lines printed, let an exception escape, or reach undefined
    behaviour. *)
Inductive outcome :=
  | Returned (r : Z) (s : list float) (out : list string)
  | Threw (e : exn)
  | Undefined.

Fixpoint run_tokens (toks : list string) (cmd : rpn_cmd) (s : list float)
  (out : list string) : outcome :=
  match toks with
  | [] => Returned 1 s out
  | tok :: rest =>
      match CC.parse_token tok cmd with
      | inl e => Threw e
      | inr (r, cmd') =>
          if (r =? -1)%Z then Returned r s out
          else match dispatch cmd' s with
               | None => Undefined
               | Some (s', o) => run_tokens rest cmd' s' (out ++ o)
               end
      end
  end.

(** [memset(&cmd, 0, sizeof(rpn_cmd))] *)
Definition cmd0 : rpn_cmd := mk_cmd zero SUM 0 DOUBLE.

Definition exec_line (s : list float) (buf : string) : outcome :=
  run_tokens (tokens buf) cmd0 s [].

End CCEval.

(** ** The segmented stack of src/rpncalc.c

    The nodes live in a heap: [mem a] is the node at address [a], [None]
    once it is freed (or never allocated); [brk] is the next address
    [malloc] returns, so fresh nodes never alias live ones.  A failed
    [malloc] ends the process and is not modelled.  Every operation
    returns [None] on undefined behaviour: a null or dangling pointer
    dereference, a double [free], an out-of-bounds index of [val], the
    read of a slot never written, or the signed overflow of [count]. *)

(** the option monad of the C model: [None] is undefined behaviour *)
Notation "x <- e1 ;; e2" := (match e1 with Some x => e2 | None => None end)
  (at level 61, e1 at next level, right associativity).

Module Seg.
Import Conv.
Local Open Scope Z_scope.

Definition STACK_NODE_ELEMENTS_NUM : Z := 10.

Definition addr := nat.

(** [struct stack_node]; [val i] is [None] while slot [i] was never
    written since the node was allocated. *)
Record stack_node := mk_node {
  ptr : Z; val : Z -> option float; prev : option addr; next : option addr }.

(** [struct stack] together with the heap its pointers point into *)
Record stack := mk_stack {
  mem : addr -> option stack_node; brk : addr;
  first : addr; last : addr; count : Z }.

Definition store (m : addr -> option stack_node) (a : addr) (n : stack_node) :=
  fun b => if Nat.eqb b a then Some n else m b.

Definition free (m : addr -> option stack_node) (a : addr)
  : option (addr -> option stack_node) :=
  match m a with
  | Some _ => Some (fun b => if Nat.eqb b a then None else m b)
  | None => None
  end.

Definition set_ptr (n : stack_node) (p : Z) := mk_node p n.(val) n.(prev) n.(next).
Definition set_next (n : stack_node) (x : option addr) := mk_node n.(ptr) n.(val) n.(prev) x.
Definition set_val (n : stack_node) (i : Z) (k : float) :=
  mk_node n.(ptr) (fun j => if Z.eqb j i then Some k else n.(val) j) n.(prev) n.(next).

Definition with_mem (s : stack) (m : addr -> option stack_node) :=
  mk_stack m s.(brk) s.(first) s.(last) s.(count).

(** [stack_init]: one empty node, allocated at the first address. *)
Definition stack_init : stack :=
  mk_stack (store (fun _ => None) 0%nat (mk_node 0 (fun _ => None) None None))
           1%nat 0%nat 0%nat 0.

Definition in_bounds (i : Z) : bool := (0 <=? i) && (i <? STACK_NODE_ELEMENTS_NUM).

(** [stack_push] *)
Definition stack_push (s : stack) (k : float) : option stack :=
  l <- s.(mem) s.(last) ;;
  s1 <- (if l.(ptr) =? STACK_NODE_ELEMENTS_NUM then
           (* the last node is full, allocate a new one *)
           let n := s.(brk) in
           let m1 := store s.(mem) n (mk_node 0 (fun _ => None) (Some s.(last)) None) in
           l' <- m1 s.(last) ;;
           Some (mk_stack (store m1 s.(last) (set_next l' (Some n)))
                          (S n) s.(first) n s.(count))
         else Some s) ;;
  l1 <- s1.(mem) s1.(last) ;;
  if negb (in_bounds l1.(ptr)) then None
  else if s1.(count) =? INT_MAX then None
  else Some (mk_stack (store s1.(mem) s1.(last) (set_ptr (set_val l1 l1.(ptr) k) (l1.(ptr) + 1)))
                      s1.(brk) s1.(first) s1.(last) (s1.(count) + 1)).

(** [stack_pop s ret]: the stack after the call, the return value and the
    value stored through [ret] when [want] (i.e. [ret != NULL]). *)
Definition stack_pop (s : stack) (want : bool) : option (stack * Z * option float) :=
  if s.(count) =? 0 then Some (s, 0, None) else
  l <- s.(mem) s.(last) ;;
  s1 <- (if l.(ptr) =? 0 then
           (* the last node is empty, free it and look to the previous one *)
           let del := s.(last) in
           p <- l.(prev) ;;
           pn <- s.(mem) p ;;
           let m1 := store s.(mem) p (set_next pn None) in
           m2 <- free m1 del ;;
           Some (mk_stack m2 s.(brk) s.(first) p s.(count))
         else Some s) ;;
  let c := s1.(count) - 1 in
  l1 <- s1.(mem) s1.(last) ;;
  let i := l1.(ptr) - 1 in
  if negb want then
    Some (mk_stack (store s1.(mem) s1.(last) (set_ptr l1 i)) s1.(brk) s1.(first) s1.(last) c, 1, None)
  else if negb (in_bounds i) then None
  else v <- l1.(val) i ;;
       Some (mk_stack (store s1.(mem) s1.(last) (set_ptr l1 i)) s1.(brk) s1.(first) s1.(last) c,
             1, Some v).

(** the [while (ptr_2 != NULL)] loop of [stack_clear]; every round frees
    a live node, so [brk + 1] rounds are never exhausted *)
Fixpoint clear_loop (fuel : nat) (m : addr -> option stack_node) (ptr_1 : addr)
  (ptr_2 : option addr) : option (addr -> option stack_node) :=
  match ptr_2 with
  | None => Some m
  | Some p2 =>
      match fuel with
      | O => None
      | S fuel' =>
          m1 <- free m ptr_1 ;;
          n2 <- m1 p2 ;;
          clear_loop fuel' m1 p2 n2.(next)
      end
  end.

(** [stack_clear]: [count] and [last] are not touched. *)
Definition stack_clear (s : stack) : option stack :=
  f <- s.(mem) s.(first) ;;
  m1 <- (match f.(next) with
         | None => Some s.(mem)
         | Some p1 => n1 <- s.(mem) p1 ;; clear_loop (S s.(brk)) s.(mem) p1 n1.(next)
         end) ;;
  f1 <- m1 s.(first) ;;
  let m2 := store m1 s.(first) (set_ptr f1 0) in
  f2 <- m2 s.(first) ;;
  Some (with_mem s (store m2 s.(first) (set_next f2 None))).

(** [stack_destroy]: the same [while (ptr_2 != NULL)] loop as
    [stack_clear], started at [first]; the result is the node heap after
    it ([free(s)] releases the [struct stack], which is not a node). *)
Definition stack_destroy (s : stack) : option (addr -> option stack_node) :=
  f <- s.(mem) s.(first) ;;
  clear_loop (S s.(brk)) s.(mem) s.(first) f.(next).

Fixpoint read_vals (v : Z -> option float) (i : Z) (n : nat) : option (list float) :=
  match n with
  | O => Some []
  | S n' => x <- v i ;; xs <- read_vals v (i + 1) n' ;; Some (x :: xs)
  end.

(** [stack_print]: the values it prints, from [first] along [next];
    [None] when it reaches undefined behaviour or does not stop (a cycle:
    more than [brk] nodes). *)
Fixpoint print_from (fuel : nat) (m : addr -> option stack_node) (p : option addr)
  : option (list float) :=
  match p with
  | None => Some []
  | Some a =>
      match fuel with
      | O => None
      | S fuel' =>
          n <- m a ;;
          xs <- read_vals n.(val) 0 (Z.to_nat n.(ptr)) ;;
          ys <- print_from fuel' m n.(next) ;;
          Some (xs ++ ys)%list
      end
  end.

Definition stack_print (s : stack) : option (list float) :=
  print_from (S s.(brk)) s.(mem) (Some s.(first)).

(** the size the program keeps, [s->count] *)
Definition size (s : stack) : Z := s.(count).

End Seg.

(** ** The C evaluator: [exec_op] and one round of [main] *)

Module CEval.
Local Open Scope Z_scope.

Definition div_zero_msg : string := "error - division by zero".

(** the [for] loop of [exec_op] with [n] iterations left *)
Fixpoint exec_loop (n : nat) (s : Seg.stack) (op : rpn_op) : option (Seg.stack * list string) :=
  match n with
  | O => Some (s, [])
  | S n' =>
      if s.(Seg.count) <=? 1 then Some (s, [])
      else
        r1 <- Seg.stack_pop s true ;;
        let '(s1, ok1, vx) := r1 in
        if ok1 =? 0 then Some (s1, []) else
        x <- vx ;;
        r2 <- Seg.stack_pop s1 true ;;
        let '(s2, ok2, vy) := r2 in
        if ok2 =? 0 then Some (s2, []) else
        y <- vy ;;
        match op with
        | SUM => s3 <- Seg.stack_push s2 (x + y)%float ;; exec_loop n' s3 op
        | SUB => s3 <- Seg.stack_push s2 (y - x)%float ;; exec_loop n' s3 op
        | MUL => s3 <- Seg.stack_push s2 (x * y)%float ;; exec_loop n' s3 op
        | DIV =>
            if (x =? zero)%float then Some (s2, [div_zero_msg])
            else s3 <- Seg.stack_push s2 (y / x)%float ;; exec_loop n' s3 op
        end
  end.

Definition exec_op (s : Seg.stack) (op : rpn_op) (times : Z) : option (Seg.stack * list string) :=
  let times := if times =? 0 then s.(Seg.count) - 1 else times in
  exec_loop (Z.to_nat times) s op.

(** One round of the [for (;;)] loop of [main] on the line [buf] (the
    newline already removed), with the [cmd] left by the previous round
    ([cmd] is declared once, outside the loop).  [stack_print] at label
    [end] is [Seg.stack_print]. *)
Inductive round := Continue (s : Seg.stack) (cmd : rpn_cmd) (out : list string) | Exit.

Definition main_round (s : Seg.stack) (cmd : rpn_cmd) (buf : string) : option round :=
  let '(retval, cmd) := C.parse_buf buf cmd in
  if retval =? -1 then Some (Continue s cmd [])
  else match cmd.(t) with
  | DOUBLE => s' <- Seg.stack_push s cmd.(val) ;; Some (Continue s' cmd [])
  | OP =>
      r <- (if cmd.(op_times) =? 0 then exec_op s cmd.(op) (s.(Seg.count) - 1)
            else exec_op s cmd.(op) cmd.(op_times)) ;;
      Some (Continue (fst r) cmd (snd r))
  | DROP => r <- Seg.stack_pop s false ;; let '(s', _, _) := r in Some (Continue s' cmd [])
  | CLEAR => s' <- Seg.stack_clear s ;; Some (Continue s' cmd [])
  | EXIT => Some Exit
  end.

(** rounds on successive lines *)
Fixpoint main_rounds (s : Seg.stack) (cmd : rpn_cmd) (lines : list string) : option round :=
  match lines with
  | [] => Some (Continue s cmd [])
  | l :: rest =>
      r <- main_round s cmd l ;;
      match r with
      | Continue s' cmd' out =>
          match main_rounds s' cmd' rest with
          | Some (Continue s'' cmd'' out') => Some (Continue s'' cmd'' (out ++ out')%list)
          | other => other
          end
      | Exit => Some Exit
      end
  end.

End CEval.

(** ** The input loop of the C [main]

    [fgets(buf, 1024, stdin)] reads at most 1023 characters, stopping
    after a newline, and returns [NULL] when no character is left; then
    [buf[strlen(buf) - 1] = 0] cuts the last character of the C string,
    whatever it is.  The initial [cmd] is the indeterminate contents of
    the uninitialised [struct rpn_cmd cmd]. *)

Module CMain.

Definition STDIN_BUF_SIZE : nat := 1024.

Fixpoint fgets_read (n : nat) (input : string) : string * string :=
  match n, input with
  | O, _ => ("", input)
  | S _, EmptyString => ("", "")
  | S n', String c rest =>
      if (c =? "010")%char then (String c "", rest)
      else let '(l, r) := fgets_read n' rest in (String c l, r)
  end.

(** the characters [fgets] stores (before the NUL it appends) and the
    input left *)
Definition fgets (input : string) : option (string * string) :=
  match input with
  | EmptyString => None
  | _ => Some (fgets_read (STDIN_BUF_SIZE - 1) input)
  end.

(** [strlen]: the characters before the first NUL *)
Fixpoint strlen (s : string) : nat :=
  match s with
  | EmptyString => O
  | String c rest => if (c =? "000")%char then O else S (strlen rest)
  end.

(** the C string after [buf[strlen(buf) - 1] = 0]; with [strlen(buf)]
    equal to 0 the write is before the buffer: [None] *)
Definition chop (buf : string) : option string :=
  match strlen buf with
  | O => None
  | S k => Some (substring 0 k buf)
  end.

(** rounds of the [for (;;)] loop until [fgets] returns [NULL] (the state
    then handed to [stack_destroy]) or [quit]; each round consumes at
    least one character, so [fuel] above the length of the input is never
    exhausted *)
Fixpoint main_loop (fuel : nat) (s : Seg.stack) (cmd : rpn_cmd) (input : string)
  : option CEval.round :=
  match fuel with
  | O => None
  | S fuel' =>
      match fgets input with
      | None => Some (CEval.Continue s cmd [])
      | Some (buf, rest) =>
          line <- chop buf ;;
          r <- CEval.main_round s cmd line ;;
          match r with
          | CEval.Continue s' cmd' out =>
              match main_loop fuel' s' cmd' rest with
              | Some (CEval.Continue s'' cmd'' out') =>
                  Some (CEval.Continue s'' cmd'' (out ++ out')%list)
              | other => other
              end
          | CEval.Exit => Some CEval.Exit
          end
      end
  end.

Definition main (cmd : rpn_cmd) (input : string) : option CEval.round :=
  main_loop (S (String.length input)) Seg.stack_init cmd input.

End CMain.

(** * What a run of the C [main] shows: the values [stack_print] prints,
    the lines printed by the commands, [size], and where [first] and
    [last] point *)

Module Observe.

(** the values [stack_print] prints after the last round *)
Definition shown (r : option CEval.round) : option (list float) :=
  match r with Some (CEval.Continue s _ _) => Seg.stack_print s | _ => None end.

Definition printed (r : option CEval.round) : option (list string) :=
  match r with Some (CEval.Continue _ _ out) => Some out | _ => None end.

Definition size_after (r : option CEval.round) : option Z :=
  match r with Some (CEval.Continue s _ _) => Some (Seg.size s) | _ => None end.

Definition ends (r : option CEval.round) : option (Seg.addr * Seg.addr * option Z) :=
  match r with
  | Some (CEval.Continue s _ _) =>
      Some (Seg.first s, Seg.last s, option_map Seg.ptr (Seg.mem s (Seg.last s)))
  | _ => None
  end.

End Observe.

(** * Token shapes *)

Module Shapes.
Import Tok Conv.



(** the characters of a string that are the given one *)
Fixpoint count_char (c : ascii) (s : string) : nat :=
  match s with
  | EmptyString => O
  | String c' rest => (if (c' =? c)%char then 1 else 0) + count_char c rest
  end.

(** a line of input: no newline and no NUL character *)
Fixpoint line_ok (s : string) : bool :=
  match s with
  | EmptyString => true
  | String c rest => negb (c =? "010")%char && negb (c =? "000")%char && line_ok rest
  end.

(** lines, each followed by a newline *)
Fixpoint join_lines (ls : list string) : string :=
  match ls with
  | [] => ""
  | l :: rest => l ++ String "010" (join_lines rest)
  end.

End Shapes.

(** * The representation invariant of the segmented stack *)

Module SegRepr.
Import Conv Seg.
Local Open Scope Z_scope.
Local Open Scope list_scope.

(** a node seen from the stack: its address and the values in its slots
    [0 .. ptr - 1] *)
Definition seg := (addr * list float)%type.

Definition node_ok (m : addr -> option stack_node) (a : addr) (xs : list float)
  (nxt prv : option addr) : Prop :=
  exists n, m a = Some n /\ n.(next) = nxt /\ n.(prev) = prv /\
    n.(ptr) = Z.of_nat (length xs) /\ read_vals n.(val) 0 (length xs) = Some xs.

Definition prev_of (rest : list seg) : option addr :=
  match rest with [] => None | (b, _) :: _ => Some b end.

(** the nodes before the last one, from the last towards the first: full,
    linked both ways, at decreasing addresses *)
Fixpoint full_chain (m : addr -> option stack_node) (a : addr) (rest : list seg) : Prop :=
  match rest with
  | [] => True
  | (b, ys) :: rest' =>
      (b < a)%nat /\ node_ok m b ys (Some a) (prev_of rest') /\
      length ys = 10%nat /\ full_chain m b rest'
  end.

Fixpoint last_addr (a : addr) (rest : list seg) : addr :=
  match rest with [] => a | (b, _) :: r => last_addr b r end.

(** [repr s l]: the stack [s] is well formed and holds [l], oldest value
    first. *)
Definition repr (s : stack) (l : list float) : Prop :=
  exists a xs rest,
    s.(last) = a /\ s.(first) = last_addr a rest /\
    node_ok s.(mem) a xs None (prev_of rest) /\ (length xs <= 10)%nat /\
    full_chain s.(mem) a rest /\
    l = concat (rev (map snd rest)) ++ xs /\
    s.(count) = Z.of_nat (length l) /\ (a < s.(brk))%nat.

(** the addresses of the nodes, from [first] to [last] *)
Definition node_addrs (a : addr) (rest : list seg) : list addr := rev (map fst rest) ++ [a].

(** the nodes at [cs] are allocated, each one's [next] is the following
    one, and the [next] of the final one is [e] *)
Fixpoint linked_to (m : addr -> option stack_node) (cs : list addr) (e : option addr) : Prop :=
  match cs with
  | [] => True
  | c :: cs' =>
      exists n, m c = Some n /\
        n.(next) = match cs' with [] => e | d :: _ => Some d end /\ linked_to m cs' e
  end.

(** the addresses met along [next] from [p], at most [fuel] of them *)
Fixpoint node_walk (fuel : nat) (m : addr -> option stack_node) (p : option addr) : list addr :=
  match p, fuel with
  | None, _ | _, O => []
  | Some a, S fuel' =>
      a :: match m a with Some n => node_walk fuel' m n.(next) | None => [] end
  end.

(** the addresses of the nodes of [s], from [first] along [next] *)
Definition nodes (s : stack) : list addr := node_walk (S s.(brk)) s.(mem) (Some s.(first)).

(** a sequence of pushes, and [n] pops collecting the values they return *)
Fixpoint push_all (s : stack) (vs : list float) : option stack :=
  match vs with
  | [] => Some s
  | v :: vs' => s1 <- stack_push s v ;; push_all s1 vs'
  end.

Fixpoint pop_n (n : nat) (s : stack) : option (stack * list float) :=
  match n with
  | O => Some (s, [])
  | S n' =>
      r <- stack_pop s true ;;
      let '(s1, _, v) := r in
      x <- v ;;
      r2 <- pop_n n' s1 ;;
      Some (fst r2, x :: snd r2)
  end.

(** the values [1.0 .. n.0] *)
Definition upto (n : nat) : list float :=
  map (fun i => PrimFloat.of_uint63 (Uint63.of_Z (Z.of_nat i))) (seq 1 n).

Definition popped (n : nat) : option (list float) :=
  s1 <- push_all stack_init (upto n) ;;
  r <- pop_n n s1 ;; Some (snd r).

End SegRepr.

(** * Properties of the classifiers and of the C++ line evaluator *)

Module TokenProps.
Import Tok Conv CCEval.
Local Open Scope list_scope.

(** parse_token leaves the command untouched whenever it returns -1 *)
Lemma parse_token_invalid_cmd (tok : string) (c c' : rpn_cmd) :
  CC.parse_token tok c = inr ((-1)%Z, c') -> c' = c.
Proof.
  unfold CC.parse_token, CC.ret, CC.cmd_double.
  repeat match goal with
         | |- context [if ?b then _ else _] => destruct b
         | |- context [match ?e with _ => _ end] => destruct e
         end; intro H; inversion H; auto.
Qed.


Lemma run_tokens_stop (pre : list string) (bad : string) (post : list string)
  (cmd : rpn_cmd) (s : list float) (out : list string) :
  Forall (fun tok => forall c c', CC.parse_token tok c <> inr ((-1)%Z, c')) pre ->
  (forall c, CC.parse_token bad c = inr ((-1)%Z, c)) ->
  run_tokens (pre ++ bad :: post) cmd s out =
  match run_tokens pre cmd s out with
  | Returned _ s' out' => Returned (-1) s' out'
  | other => other
  end.
Proof.
  intros Hpre Hbad. revert cmd s out.
  induction Hpre as [|tok pre Htok Hpre IH]; intros cmd s out.
  - simpl. rewrite Hbad. reflexivity.
  - simpl. destruct (CC.parse_token tok cmd) as [e|[r c']] eqn:Hp; [reflexivity|].
    destruct (Z.eqb_spec r (-1)) as [->|Hr].
    + exfalso. exact (Htok _ _ Hp).
    + destruct (dispatch c' s) as [[s1 o]|]; [apply IH | reflexivity].
Qed.

(** C2: [exec_line] stops at the first token [parse_token] rejects and
    returns -1 (the failure the caller reports as "error"): the commands
    of the earlier tokens have been applied to the stack exactly as
    [run_tokens] applies them on their own, nothing is undone, and the
    later tokens [post] play no part in the result. *)
Theorem exec_line_stops_at_invalid (s : list float) (line : string)
  (pre : list string) (bad : string) (post : list string) :
  tokens line = pre ++ bad :: post ->
  Forall (fun tok => forall c c', CC.parse_token tok c <> inr ((-1)%Z, c')) pre ->
  (forall c, CC.parse_token bad c = inr ((-1)%Z, c)) ->
  exec_line s line =
  match run_tokens pre cmd0 s [] with
  | Returned _ s' out' => Returned (-1) s' out'
  | other => other
  end.
Proof.
  intros Htok Hpre Hbad. unfold exec_line. rewrite Htok.
  apply run_tokens_stop; assumption.
Qed.

(** C2 at the example of the spec: ["5 bogus 6"] on an empty stack. *)
Lemma exec_line_stops_at_invalid_witness :
  tokens "5 bogus 6" = ["5"] ++ "bogus" :: ["6"] /\
  Forall (fun tok => forall c c', CC.parse_token tok c <> inr ((-1)%Z, c')) ["5"] /\
  (forall c, CC.parse_token "bogus" c = inr ((-1)%Z, c)) /\
  exec_line [] "5 bogus 6" = Returned (-1) [5%float] [] /\
  exec_line [] "5 bogus 6" =
  match run_tokens ["5"] cmd0 [] [] with
  | Returned _ s' out' => Returned (-1) s' out'
  | other => other
  end.
Proof.
  assert (H5 : Forall (fun tok => forall c c', CC.parse_token tok c <> inr ((-1)%Z, c')) ["5"]).
  { constructor; [|constructor]. intros c c'. vm_compute. discriminate. }
  assert (Hb : forall c, CC.parse_token "bogus" c = inr ((-1)%Z, c)).
  { intro c. reflexivity. }
  split; [reflexivity|]. split; [exact H5|]. split; [exact Hb|].
  split; [vm_compute; reflexivity|].
  exact (exec_line_stops_at_invalid [] "5 bogus 6" ["5"] "bogus" ["6"] eq_refl H5 Hb).
Defined.

Lemma lookup_cmd_in (tbl : list (string * rpn_type)) (buf : string) (ty : rpn_type) :
  lookup_cmd tbl buf = Some ty -> In (buf, ty) tbl.
Proof.
  induction tbl as [|[name ty'] rest IH]; simpl; [discriminate|].
  destruct (String.eqb_spec buf name) as [->|_].
  - intro H. inversion H. left. reflexivity.
  - intro H. right. apply IH, H.
Qed.

(** Every path of [parse_token] that returns 0 without a keyword sets
    [t] to [DOUBLE] or [OP]. *)
Lemma parse_token_ok_type (tok : string) (c c' : rpn_cmd) :
  CC.parse_token tok c = inr (0%Z, c') ->
  (exists ty, lookup_cmd CC.rpn_commands tok = Some ty /\ c' = set_t c ty)
  \/ c'.(t) = DOUBLE \/ c'.(t) = OP.
Proof.
  unfold CC.parse_token, CC.ret, CC.cmd_double.
  destruct (String.length tok =? 0)%nat; [intro H; inversion H|].
  destruct (lookup_cmd CC.rpn_commands tok) as [ty|] eqn:Hl.
  - intro H. inversion H. left. exists ty. split; reflexivity.
  - repeat (match goal with
            | |- context [stod ?x] => destruct (stod x)
            | |- context [stol ?x] => destruct (stol x)
            | |- context [if ?b then _ else _] => destruct b
            end; simpl);
      intro H; inversion H; subst; simpl; auto.
Qed.

(** C7 (counterexample): the C++ classifier has no ["quit"] keyword and
    rejects the token. *)
Lemma quit_rejected_by_parse_token :
  CC.parse_token "quit" CCEval.cmd0 = inr ((-1)%Z, CCEval.cmd0).
Proof. reflexivity. Qed.

(** C7 (amended): both classifiers check their keyword table first, by
    exact string comparison.  The C table maps ["quit"], ["drop"],
    ["clear"] to [EXIT], [DROP], [CLEAR]; the C++ table maps ["drop"] and
    ["clear"] to [DROP] and [CLEAR] and has no ["quit"], which
    [parse_token] rejects with -1.  In the C++ classifier a successful
    result of type [DROP] or [CLEAR] comes from its keyword only, and
    [EXIT] never comes out. *)
Theorem keyword_table_checked_first :
  C.rpn_commands = [("quit", EXIT); ("drop", DROP); ("clear", CLEAR)] /\
  CC.rpn_commands = [("drop", DROP); ("clear", CLEAR)] /\
  (forall buf cmd ty, In (buf, ty) C.rpn_commands ->
     C.parse_buf buf cmd = (0%Z, set_t cmd ty)) /\
  (forall buf cmd ty, In (buf, ty) CC.rpn_commands ->
     CC.parse_token buf cmd = inr (0%Z, set_t cmd ty)) /\
  (forall buf tbl ty, lookup_cmd tbl buf = Some ty -> In (buf, ty) tbl) /\
  (forall cmd, CC.parse_token "quit" cmd = inr ((-1)%Z, cmd)) /\
  (forall tok cmd cmd', CC.parse_token tok cmd = inr (0%Z, cmd') ->
     (cmd'.(t) = DROP -> tok = "drop") /\ (cmd'.(t) = CLEAR -> tok = "clear") /\
     cmd'.(t) <> EXIT).
Proof.
  split; [reflexivity|]. split; [reflexivity|].
  split.
  { intros buf cmd ty H. simpl in H.
    destruct H as [H|[H|[H|[]]]]; inversion H; subst; reflexivity. }
  split.
  { intros buf cmd ty H. simpl in H.
    destruct H as [H|[H|[]]]; inversion H; subst; reflexivity. }
  split; [intros buf tbl ty; apply lookup_cmd_in|].
  split; [intro cmd; reflexivity|].
  intros tok cmd cmd' H.
  destruct (parse_token_ok_type tok cmd cmd' H) as [[ty [Hl ->]]|[Ht|Ht]].
  - apply lookup_cmd_in in Hl. simpl in Hl.
    destruct Hl as [Hl|[Hl|[]]]; inversion Hl; subst; simpl;
      repeat split; intro; congruence.
  - rewrite Ht. repeat split; intro; discriminate.
  - rewrite Ht. repeat split; intro; discriminate.
Qed.

(** [split_sp] over a line with a space: the pieces of both sides. *)
Lemma split_sp_space (s1 s2 : string) (acc : string) :
  split_sp (s1 ++ String " " s2) acc = split_sp s1 acc ++ split_sp s2 "".
Proof.
  revert acc. induction s1 as [|c s1 IH]; intro acc.
  - reflexivity.
  - simpl. destruct (c =? " ")%char.
    + simpl. f_equal. apply IH.
    + apply IH.
Qed.

(** [split_sp] over a piece with no space: one token *)
Lemma split_sp_no_space (s acc : string) :
  Shapes.count_char " " s = O -> split_sp s acc = [(acc ++ s)%string].
Proof.
  revert acc. induction s as [|c s IH]; intros acc H.
  - simpl. f_equal. clear H. induction acc as [|a acc IHa]; simpl; congruence.
  - simpl in H. destruct (c =? " ")%char eqn:Hc; [discriminate|]. simpl in H.
    simpl. rewrite Hc, IH by exact H. f_equal.
    clear. induction acc as [|a acc IHa]; simpl; congruence.
Qed.

(** [split_sp]: one token more than spaces *)
Lemma split_sp_length (s acc : string) :
  length (split_sp s acc) = S (Shapes.count_char " " s).
Proof.
  revert acc. induction s as [|c s IH]; intro acc; [reflexivity|].
  simpl. destruct (c =? " ")%char; simpl; rewrite IH; reflexivity.
Qed.

(** C8 (counterexample): a doubled space changes the result of a line. *)
Lemma doubled_space_changes_result :
  exec_line [] "1 2" = Returned 1 [1%float; 2%float] [] /\
  exec_line [] "1  2" = Returned (-1) [1%float] [].
Proof. split; vm_compute; reflexivity. Qed.

(** C8 (amended): [exec_line] cuts the line at every single space
    character (other whitespace is not a separator): the pieces on both
    sides of a space are the tokens of each side, a line with no space is
    one token, itself (tabs and other characters included), [k] spaces
    give [k + 1] tokens, and two adjacent spaces, or a leading or trailing one,
    give an empty token; [parse_token] rejects the empty token with -1,
    so the line stops there with the failure result after the commands
    before it were applied. *)
Theorem exec_line_splits_on_each_space :
  (forall s1 s2, tokens (s1 ++ String " " s2) = tokens s1 ++ tokens s2) /\
  tokens "" = [""] /\
  (forall s, Shapes.count_char " " s = O -> tokens s = [s]) /\
  (forall s, length (tokens s) = S (Shapes.count_char " " s)) /\
  (forall cmd, CC.parse_token "" cmd = inr ((-1)%Z, cmd)) /\
  (forall s s1 s2,
     Forall (fun tok => forall c c', CC.parse_token tok c <> inr ((-1)%Z, c')) (tokens s1) ->
     exec_line s (s1 ++ String " " (String " " s2)) =
     match run_tokens (tokens s1) cmd0 s [] with
     | Returned _ s' out' => Returned (-1) s' out'
     | other => other
     end).
Proof.
  split; [intros s1 s2; apply split_sp_space|].
  split; [reflexivity|].
  split; [intros s H; unfold tokens; rewrite split_sp_no_space by exact H; reflexivity|].
  split; [intro s; apply split_sp_length|].
  split; [intro cmd; reflexivity|].
  intros s s1 s2 Hpre. unfold exec_line, tokens.
  rewrite split_sp_space. simpl.
  apply run_tokens_stop; [assumption|intro c; reflexivity].
Qed.

(** C9: [is_valid_double] accepts a bare dot (the dot is skipped and no
    digit is required).  The C classifier then turns [.], [+.] and [-.]
    into the number [strtod] returns without a conversion, 0.0; the C++
    classifier hands them to [std::stod], which throws
    [invalid_argument]. *)
Theorem bare_dot_accepted (cmd : rpn_cmd) :
  is_valid_double "." = true /\
  C.parse_buf "." cmd = (0%Z, cmd_double_val cmd zero) /\
  C.parse_buf "+." cmd = (0%Z, cmd_double_val cmd zero) /\
  C.parse_buf "-." cmd = (0%Z, cmd_double_val cmd zero) /\
  CC.parse_token "." cmd = inl invalid_argument /\
  CC.parse_token "+." cmd = inl invalid_argument /\
  CC.parse_token "-." cmd = inl invalid_argument /\
  exec_line [] "." = Threw invalid_argument.
Proof. repeat split; reflexivity. Qed.

End TokenProps.

(** * The C classifier on tokens of no recognised shape *)

Module CParseProps.
Import CEval Observe.

(** C3: the last [else] branch of [parse_buf] has no [return -1] (the C++
    [parse_token] has one): on ["bogus"] or ["1.2.3"] it returns 0 and
    leaves [cmd] as the previous round left it, so [main] executes that
    command again; after the line ["5"], the line ["bogus"] pushes 5 a
    second time. *)
Theorem parse_buf_unrecognised_returns_0 (cmd : rpn_cmd) :
  C.parse_buf "bogus" cmd = (0%Z, cmd) /\
  C.parse_buf "1.2.3" cmd = (0%Z, cmd) /\
  CC.parse_token "bogus" cmd = inr ((-1)%Z, cmd) /\
  CC.parse_token "1.2.3" cmd = inr ((-1)%Z, cmd) /\
  shown (main_rounds Seg.stack_init cmd ["5"; "bogus"]) = Some [5%float; 5%float].
Proof. repeat split; vm_compute; reflexivity. Qed.

End CParseProps.

(** * The C++ operator executor *)

Module CCExecProps.
Import Conv CCEval.
Local Open Scope list_scope.

Lemma back_snoc (l : list float) (x : float) : back (l ++ [x]) = Some x.
Proof. unfold back. rewrite rev_app_distr. reflexivity. Qed.

Lemma pop_back_snoc (l : list float) (x : float) : pop_back (l ++ [x]) = Some l.
Proof.
  unfold pop_back. rewrite removelast_last.
  destruct l; reflexivity.
Qed.

(** one iteration of the loop on a stack with two operands or more *)
Lemma exec_loop_step (n : nat) (op : rpn_op) (l : list float) (y x : float) :
  exec_loop (S n) op (l ++ [y; x]) =
  match op with
  | SUM => exec_loop n op (l ++ [(x + y)%float])
  | SUB => exec_loop n op (l ++ [(y - x)%float])
  | MUL => exec_loop n op (l ++ [(x * y)%float])
  | DIV => if (x =? zero)%float then Some (l, [div_zero_msg])
           else exec_loop n op (l ++ [(y / x)%float])
  end.
Proof.
  cbn [exec_loop].
  replace (l ++ [y; x]) with ((l ++ [y]) ++ [x]) by (rewrite <- app_assoc; reflexivity).
  destruct (Nat.leb_spec (length ((l ++ [y]) ++ [x])) 1) as [Hle|_].
  { rewrite !length_app in Hle. simpl in Hle. lia. }
  rewrite back_snoc, pop_back_snoc, back_snoc, pop_back_snoc.
  reflexivity.
Qed.

(** the loop on a stack of one operand or none: no change, no output *)
Lemma exec_loop_starved (n : nat) (op : rpn_op) (s : list float) :
  (length s <= 1)%nat -> exec_loop n op s = Some (s, []).
Proof.
  intro H. destruct n as [|n]; [reflexivity|].
  cbn [exec_loop]. apply Nat.leb_le in H. rewrite H. reflexivity.
Qed.

End CCExecProps.

(** * The segmented stack: representation invariant, push and pop *)

Module SegProps.
Import Conv Seg SegRepr.
Local Open Scope Z_scope.
Local Open Scope list_scope.
Local Arguments store : simpl never.

Lemma store_same (m : addr -> option stack_node) (a : addr) (n : stack_node) :
  store m a n a = Some n.
Proof. unfold store. rewrite Nat.eqb_refl. reflexivity. Qed.

Lemma store_other (m : addr -> option stack_node) (a b : addr) (n : stack_node) :
  b <> a -> store m a n b = m b.
Proof. intro H. unfold store. apply Nat.eqb_neq in H. rewrite H. reflexivity. Qed.

Lemma node_ok_ext (m m' : addr -> option stack_node) a xs nxt prv :
  node_ok m a xs nxt prv -> m' a = m a -> node_ok m' a xs nxt prv.
Proof. intros [n Hn] E. exists n. rewrite E. exact Hn. Qed.

Lemma full_chain_ext (m m' : addr -> option stack_node) (a : addr) (rest : list seg) :
  full_chain m a rest -> (forall b, (b < a)%nat -> m' b = m b) -> full_chain m' a rest.
Proof.
  revert a. induction rest as [|[b ys] rest IH]; intros a H E; [exact I|].
  destruct H as [Hlt [Hok [Hlen Hch]]].
  split; [exact Hlt|]. split; [apply (node_ok_ext m); [exact Hok|apply E; exact Hlt]|].
  split; [exact Hlen|].
  apply (IH b Hch). intros c Hc. apply E. lia.
Qed.

Lemma read_vals_snoc (v : Z -> option float) (i : Z) (n : nat) :
  read_vals v i (S n) =
  (xs <- read_vals v i n ;; y <- v (i + Z.of_nat n) ;; Some (xs ++ [y])).
Proof.
  revert i. induction n as [|n IH]; intro i.
  - simpl. rewrite Z.add_0_r. destruct (v i); reflexivity.
  - change (read_vals v i (S (S n))) with
      (x <- v i ;; xs <- read_vals v (i + 1) (S n) ;; Some (x :: xs)).
    rewrite IH. simpl.
    destruct (v i); [|reflexivity].
    destruct (read_vals v (i + 1) n); [|reflexivity].
    replace (i + 1 + Z.of_nat n) with (i + Z.pos (Pos.of_succ_nat n)) by lia.
    destruct (v (i + Z.pos (Pos.of_succ_nat n))); reflexivity.
Qed.

Lemma read_vals_ext (v v' : Z -> option float) (i : Z) (n : nat) :
  (forall j, i <= j < i + Z.of_nat n -> v' j = v j) ->
  read_vals v' i n = read_vals v i n.
Proof.
  revert i. induction n as [|n IH]; intros i E; [reflexivity|].
  simpl. rewrite E by lia. rewrite IH by (intros j Hj; apply E; lia).
  reflexivity.
Qed.

Lemma read_vals_snoc_inv (v : Z -> option float) (xs : list float) (x : float) :
  read_vals v 0 (length (xs ++ [x])) = Some (xs ++ [x]) ->
  read_vals v 0 (length xs) = Some xs /\ v (Z.of_nat (length xs)) = Some x.
Proof.
  rewrite length_app. simpl length. rewrite Nat.add_1_r, read_vals_snoc.
  destruct (read_vals v 0 (length xs)) as [zs|]; [|discriminate].
  destruct (v (0 + Z.of_nat (length xs))) as [y|] eqn:Hy; [|discriminate].
  intro H. injection H as H. apply app_inj_tail in H as [-> ->].
  split; [reflexivity|]. exact Hy.
Qed.

(** [stack_push] on a well-formed stack appends the value; the new node
    allocated when the last one is full becomes the last node. *)
Lemma stack_push_repr (s : stack) (l : list float) (k : float) :
  repr s l -> Z.of_nat (length l) < INT_MAX ->
  exists s', stack_push s k = Some s' /\ repr s' (l ++ [k]).
Proof.
  intros (a & xs & rest & Hlast & Hfirst & Hok & Hle & Hch & Hl & Hc & Hbrk) Hbound.
  destruct Hok as (n & Hm & Hnx & Hpv & Hptr & Hrv).
  assert (Hcnt : (count s =? 2147483647) = false) by (apply Z.eqb_neq; unfold INT_MAX in Hbound; lia).
  unfold stack_push. rewrite Hlast, Hm.
  destruct (Z.eqb_spec (ptr n) STACK_NODE_ELEMENTS_NUM) as [Hfull|Hnf].
  - cbn zeta. rewrite store_other by lia. rewrite Hm. cbn.
    rewrite store_other by lia. rewrite store_same. cbn.
    rewrite Hcnt.
    eexists. split; [reflexivity|].
    assert (Hx10 : length xs = 10%nat) by (unfold STACK_NODE_ELEMENTS_NUM in Hfull; lia).
    exists (brk s), [k], ((a, xs) :: rest).
    cbn [mem last first count brk last_addr prev_of full_chain].
    split; [reflexivity|]. split; [exact Hfirst|].
    split.
    { eexists. split; [apply store_same|]. cbn. repeat split. }
    split; [simpl; lia|].
    split.
    { split; [exact Hbrk|]. split.
      { exists (set_next n (Some (brk s))).
        rewrite store_other by lia. rewrite store_same.
        cbn. repeat split; assumption. }
      split; [exact Hx10|].
      apply (full_chain_ext (mem s)); [exact Hch|].
      intros c Hc'. rewrite store_other by lia. rewrite store_other by lia.
      rewrite store_other by lia. reflexivity. }
    split; [subst l; cbn; rewrite concat_app; cbn; rewrite app_nil_r; reflexivity|].
    split; [rewrite Hc, length_app; cbn; lia|].
    lia.
  - cbn. rewrite Hlast, Hm.
    assert (Hin : in_bounds (ptr n) = true).
    { unfold in_bounds, STACK_NODE_ELEMENTS_NUM in *. apply andb_true_intro.
      split; [apply Z.leb_le; lia|apply Z.ltb_lt; lia]. }
    rewrite Hin. cbn. rewrite Hcnt.
    eexists. split; [reflexivity|].
    exists a, (xs ++ [k]), rest.
    cbn [mem last first count brk].
    split; [reflexivity|]. split; [exact Hfirst|].
    split.
    { eexists. split; [apply store_same|]. cbn.
      split; [exact Hnx|]. split; [exact Hpv|].
      rewrite length_app. split; [cbn; lia|].
      rewrite Nat.add_1_r, read_vals_snoc.
      rewrite read_vals_ext with (v := val n).
      - rewrite Hrv. cbn. rewrite Hptr. rewrite Z.eqb_refl. reflexivity.
      - intros j Hj. rewrite Hptr. destruct (Z.eqb_spec j (Z.of_nat (length xs))); [lia|reflexivity]. }
    split; [rewrite length_app; cbn; unfold STACK_NODE_ELEMENTS_NUM in *; lia|].
    split.
    { apply (full_chain_ext (mem s)); [exact Hch|].
      intros c Hc'. rewrite store_other by lia. reflexivity. }
    split; [subst l; rewrite app_assoc; reflexivity|].
    split; [rewrite Hc, !length_app; cbn; lia|].
    lia.
Qed.

(** a list is empty or ends with an element *)
Lemma snoc_cases {A : Type} (xs : list A) : xs = [] \/ exists ys y, xs = ys ++ [y].
Proof.
  induction xs as [|x xs _] using rev_ind; [left; reflexivity|right; eauto].
Qed.

(** a well-formed stack holding a value has a non-zero [count] *)
Lemma repr_count_pos (s : stack) (l : list float) (x : float) :
  repr s (l ++ [x]) -> (count s =? 0) = false.
Proof.
  intros (a & xs & rest & _ & _ & _ & _ & _ & _ & Hc & _).
  apply Z.eqb_neq. rewrite Hc, length_app. simpl. lia.
Qed.

(** [stack_pop] on a well-formed non-empty stack returns the newest value;
    a last node found empty is freed first. *)
Lemma stack_pop_repr (s : stack) (l : list float) (x : float) :
  repr s (l ++ [x]) ->
  exists s', stack_pop s true = Some (s', 1, Some x) /\ repr s' l.
Proof.
  intro Hr. pose proof (repr_count_pos _ _ _ Hr) as Hc0.
  destruct Hr as (a & xs & rest & Hlast & Hfirst & Hok & Hle & Hch & Hl & Hc & Hbrk).
  destruct Hok as (n & Hm & Hnx & Hpv & Hptr & Hrv).
  unfold stack_pop. rewrite Hc0, Hlast, Hm.
  destruct (snoc_cases xs) as [->|(xs' & x' & ->)].
  - (* the last node is empty: it is freed *)
    destruct rest as [|[b ys] rest'].
    { exfalso. simpl in Hl. destruct l; discriminate. }
    destruct Hch as (Hba & Hbok & Hys & Hch').
    destruct Hbok as (nb & Hmb & Hbnx & Hbpv & Hbptr & Hbrv).
    destruct (snoc_cases ys) as [->|(ys' & y' & ->)]; [discriminate|].
    cbn [rev map concat] in Hl. rewrite concat_app, app_nil_r in Hl. cbn in Hl.
    rewrite app_nil_r, app_assoc in Hl. apply app_inj_tail in Hl as [Hl <-].
    rewrite length_app in Hys. simpl in Hys.
    apply read_vals_snoc_inv in Hbrv as [Hbrv Hy].
    rewrite Hptr. simpl Z.of_nat. cbn. rewrite Hpv. cbn. rewrite Hmb. cbn.
    unfold free. rewrite store_other by lia. rewrite Hm. cbn.
    replace (b =? a)%nat with false by (symmetry; apply Nat.eqb_neq; lia).
    rewrite store_same. cbn. rewrite Hbptr, length_app. cbn.
    replace (Z.of_nat (length ys' + 1) - 1) with (Z.of_nat (length ys')) by lia.
    rewrite Hy. cbn.
    replace (in_bounds (Z.of_nat (length ys'))) with true
      by (symmetry; unfold in_bounds, STACK_NODE_ELEMENTS_NUM; apply andb_true_intro;
          split; [apply Z.leb_le|apply Z.ltb_lt]; lia).
    eexists. split; [reflexivity|].
    exists b, ys', rest'.
    cbn [mem last first count brk].
    split; [reflexivity|]. split; [exact Hfirst|].
    split.
    { eexists. split; [apply store_same|]. cbn. repeat split; assumption. }
    split; [lia|].
    split.
    { apply (full_chain_ext (mem s)); [exact Hch'|].
      intros c Hcb. rewrite store_other by lia.
      replace (c =? a)%nat with false by (symmetry; apply Nat.eqb_neq; lia).
      rewrite store_other by lia. reflexivity. }
    split; [exact Hl|].
    split; [rewrite Hc, Hl, !length_app; cbn; lia|].
    lia.
  - (* the last node keeps at least one value *)
    rewrite app_assoc in Hl. apply app_inj_tail in Hl as [Hl <-].
    apply read_vals_snoc_inv in Hrv as [Hrv Hx].
    assert (Hp0 : (ptr n =? 0) = false)
      by (apply Z.eqb_neq; rewrite Hptr, length_app; simpl; lia).
    assert (Hp1 : ptr n - 1 = Z.of_nat (length xs'))
      by (rewrite Hptr, length_app; simpl; lia).
    rewrite Hp0. cbn. rewrite Hlast, Hm. cbn. rewrite Hp1.
    rewrite length_app in Hle. cbn in Hle.
    replace (in_bounds (Z.of_nat (length xs'))) with true
      by (symmetry; unfold in_bounds, STACK_NODE_ELEMENTS_NUM; apply andb_true_intro;
          split; [apply Z.leb_le|apply Z.ltb_lt]; lia).
    cbn. rewrite Hx.
    eexists. split; [reflexivity|].
    exists a, xs', rest.
    cbn [mem last first count brk].
    split; [reflexivity|]. split; [exact Hfirst|].
    split.
    { eexists. split; [apply store_same|]. cbn. repeat split; assumption. }
    split; [lia|].
    split.
    { apply (full_chain_ext (mem s)); [exact Hch|].
      intros c Hca. rewrite store_other by lia. reflexivity. }
    split; [exact Hl|].
    split; [rewrite Hc, Hl, !length_app; cbn; lia|].
    lia.
Qed.


Lemma repr_init : repr stack_init [].
Proof.
  exists 0%nat, [], [].
  split; [reflexivity|]. split; [reflexivity|].
  split; [eexists; split; [apply store_same|]; repeat split|].
  split; [simpl; lia|]. split; [exact I|]. split; [reflexivity|].
  split; [reflexivity|]. simpl. lia.
Qed.

Lemma push_all_repr (vs : list float) (s : stack) (l : list float) :
  repr s l -> Z.of_nat (length l + length vs) <= INT_MAX ->
  exists s', push_all s vs = Some s' /\ repr s' (l ++ vs).
Proof.
  revert s l. induction vs as [|v vs IH]; intros s l Hr Hb.
  - exists s. rewrite app_nil_r. split; [reflexivity|exact Hr].
  - simpl in Hb.
    destruct (stack_push_repr s l v Hr) as (s1 & Hp & Hr1); [lia|].
    destruct (IH s1 (l ++ [v]) Hr1) as (s2 & Hp2 & Hr2).
    { rewrite length_app. simpl. lia. }
    exists s2. simpl. rewrite Hp. split; [exact Hp2|].
    rewrite <- app_assoc in Hr2. exact Hr2.
Qed.

Lemma pop_n_repr (vs : list float) (s : stack) (l : list float) :
  repr s (l ++ vs) ->
  exists s', pop_n (length vs) s = Some (s', rev vs) /\ repr s' l.
Proof.
  revert s. induction vs as [|v vs IH] using rev_ind; intros s Hr.
  - exists s. rewrite app_nil_r in Hr. split; [reflexivity|exact Hr].
  - rewrite app_assoc in Hr.
    destruct (stack_pop_repr s (l ++ vs) v Hr) as (s1 & Hp & Hr1).
    destruct (IH s1 Hr1) as (s2 & Hp2 & Hr2).
    exists s2. rewrite length_app, Nat.add_1_r. simpl.
    rewrite Hp. simpl. rewrite Hp2. simpl.
    rewrite rev_app_distr. split; [reflexivity|exact Hr2].
Qed.

(** C5: on a well-formed stack holding [l], pushing [v1 .. vn] and then
    popping [n] times returns [vn .. v1] and leaves the stack holding [l]
    again, whatever the segment boundaries crossed.  [count] is a C [int]:
    the pushes must not take it past [INT_MAX]. *)
Theorem push_then_pop_reverses (s : stack) (l vs : list float) :
  repr s l -> Z.of_nat (length l + length vs) <= INT_MAX ->
  exists s1 s2,
    push_all s vs = Some s1 /\ pop_n (length vs) s1 = Some (s2, rev vs) /\ repr s2 l.
Proof.
  intros Hr Hb.
  destruct (push_all_repr vs s l Hr Hb) as (s1 & Hp & Hr1).
  destruct (pop_n_repr vs s1 l Hr1) as (s2 & Hp2 & Hr2).
  exists s1, s2. split; [exact Hp|]. split; [exact Hp2|exact Hr2].
Qed.

(** C5 at the segment boundaries n = C, C + 1, 2C, 2C + 1 (C = 10), and
    the theorem on the fresh stack with 21 values. *)
Lemma push_then_pop_reverses_witness :
  popped 10 = Some (rev (upto 10)) /\ popped 11 = Some (rev (upto 11)) /\
  popped 20 = Some (rev (upto 20)) /\ popped 21 = Some (rev (upto 21)) /\
  exists s1 s2,
    push_all stack_init (upto 21) = Some s1 /\
    pop_n (length (upto 21)) s1 = Some (s2, rev (upto 21)) /\ repr s2 [].
Proof.
  split; [vm_compute; reflexivity|]. split; [vm_compute; reflexivity|].
  split; [vm_compute; reflexivity|]. split; [vm_compute; reflexivity|].
  apply (push_then_pop_reverses stack_init [] (upto 21) repr_init).
  unfold INT_MAX. simpl. lia.
Defined.

End SegProps.

(** * The operator executors, [clear] and [drop] *)

Module OpProps.
Import Conv SegRepr SegProps Observe.
Local Open Scope list_scope.

(** one iteration of the C loop that finds a zero divisor on a well-formed
    stack: both operands are popped and nothing is pushed back *)
Lemma c_exec_loop_div_zero (n : nat) (s : Seg.stack) (l : list float) (y x : float) :
  repr s (l ++ [y; x]) -> (x =? zero)%float = true ->
  exists s', CEval.exec_loop (S n) s DIV = Some (s', [CEval.div_zero_msg]) /\ repr s' l.
Proof.
  intros Hr Hx.
  assert (Hc : (Seg.count s <=? 1)%Z = false).
  { destruct Hr as (a & xs & rest & _ & _ & _ & _ & _ & _ & Hc & _).
    apply Z.leb_gt. rewrite Hc, length_app. simpl. lia. }
  replace (l ++ [y; x]) with ((l ++ [y]) ++ [x]) in Hr
    by (rewrite <- app_assoc; reflexivity).
  destruct (stack_pop_repr s (l ++ [y]) x Hr) as (s1 & Hp1 & Hr1).
  destruct (stack_pop_repr s1 l y Hr1) as (s2 & Hp2 & Hr2).
  exists s2. cbn [CEval.exec_loop]. rewrite Hc, Hp1. simpl.
  rewrite Hp2. simpl. rewrite Hx. split; [reflexivity|exact Hr2].
Qed.

Lemma to_int_small (z : Z) : (0 <= z <= INT_MAX)%Z -> to_int z = z.
Proof.
  unfold to_int, INT_MAX. intro H.
  rewrite Z.mod_small by lia.
  destruct (Z.ltb_spec z (2 ^ 31)); lia.
Qed.

Lemma size_minus_1_to_nat (s : list float) :
  (Z.of_nat (length s) <= 2 ^ 31)%Z ->
  Z.to_nat (CCEval.size_minus_1 s) = Nat.pred (length s).
Proof.
  intro H. unfold CCEval.size_minus_1.
  destruct (length s) as [|k] eqn:Hk.
  - reflexivity.
  - rewrite (Z.mod_small _ (2 ^ 64)) by lia.
    rewrite to_int_small by (unfold INT_MAX; lia). lia.
Qed.

(** C1 (counterexample): a zero divisor is reported by a printed line
    only; [exec_op] returns normally, [exec_line] goes on with the next
    token and returns 1, and the C [main] goes on with the next line. *)
Lemma div_by_zero_is_not_an_error :
  CCEval.exec_line [] "10 0 /" = CCEval.Returned 1 [] [CCEval.div_zero_msg] /\
  CCEval.exec_line [] "10 0 / 5" = CCEval.Returned 1 [5%float] [CCEval.div_zero_msg] /\
  shown (CEval.main_rounds Seg.stack_init CCEval.cmd0 ["10"; "0"; "/"; "5"])
    = Some [5%float] /\
  printed (CEval.main_rounds Seg.stack_init CCEval.cmd0 ["10"; "0"; "/"; "5"])
    = Some [CEval.div_zero_msg].
Proof. repeat split; vm_compute; reflexivity. Qed.

(** C1 (amended): when an iteration of [exec_op]'s loop pops a divisor
    [x] equal to 0 (on top of [y] over the rest [l]), both versions push
    nothing, run none of the remaining iterations, print
    "error - division by zero" and return normally, leaving [l]: the two
    popped operands stay consumed.  No error reaches the caller: in C++,
    [exec_line] carries on with the rest of the line after any command
    [dispatch] executes, with the lines it printed appended to the output. *)
Theorem div_by_zero_prints_and_returns (n : nat) (l : list float) (y x : float) :
  (x =? zero)%float = true ->
  CCEval.exec_loop (S n) DIV (l ++ [y; x]) = Some (l, [CCEval.div_zero_msg]) /\
  (forall s, repr s (l ++ [y; x]) ->
     exists s', CEval.exec_loop (S n) s DIV = Some (s', [CEval.div_zero_msg]) /\ repr s' l) /\
  CCEval.div_zero_msg = "error - division by zero" /\
  CEval.div_zero_msg = "error - division by zero" /\
  (forall tok rest cmd cmd' s s' out o,
     CC.parse_token tok cmd = inr (0%Z, cmd') -> CCEval.dispatch cmd' s = Some (s', o) ->
     CCEval.run_tokens (tok :: rest) cmd s out = CCEval.run_tokens rest cmd' s' (out ++ o)).
Proof.
  intro Hx.
  split; [rewrite (CCExecProps.exec_loop_step n DIV l y x), Hx; reflexivity|].
  split; [intros s Hr; exact (c_exec_loop_div_zero n s l y x Hr Hx)|].
  split; [reflexivity|]. split; [reflexivity|].
  intros tok rest cmd cmd' s s' out o Hp Hd. simpl. rewrite Hp. simpl. rewrite Hd. reflexivity.
Qed.

(** C1 at a zero divisor over [10.0] on an otherwise empty stack. *)
Lemma div_by_zero_prints_and_returns_witness :
  (zero =? zero)%float = true /\
  CCEval.exec_loop 1 DIV ([] ++ [10%float; zero]) = Some ([], [CCEval.div_zero_msg]).
Proof.
  split; [vm_compute; reflexivity|].
  apply (div_by_zero_prints_and_returns 0 [] 10%float zero). vm_compute. reflexivity.
Defined.

(** C4: with a repeat count of 0, [exec_op] runs [max(size - 1, 0)]
    iterations (in C++ the [size_t] difference is narrowed to [int], exact
    while the list holds at most 2^31 values; in C [count] is an [int]
    already), and any iteration that finds one operand or none returns at
    once, with the stack unchanged and nothing printed. *)
Theorem repeat_zero_and_starvation :
  (forall op s, (Z.of_nat (length s) <= 2 ^ 31)%Z ->
     CCEval.exec_op s op 0 = CCEval.exec_loop (Nat.pred (length s)) op s) /\
  (forall n op s, (length s <= 1)%nat -> CCEval.exec_loop n op s = Some (s, [])) /\
  (forall op s,
     CEval.exec_op s op 0 = CEval.exec_loop (Z.to_nat (Z.max (Seg.count s - 1) 0)) s op) /\
  (forall n op s, (Seg.count s <= 1)%Z -> CEval.exec_loop n s op = Some (s, [])) /\
  CCEval.exec_line [] "1 2 3 0+" = CCEval.Returned 1 [6%float] [] /\
  shown (CEval.main_rounds Seg.stack_init CCEval.cmd0 ["1"; "2"; "3"; "0+"])
    = Some [6%float].
Proof.
  split.
  { intros op s H. unfold CCEval.exec_op. simpl.
    rewrite size_minus_1_to_nat by exact H. reflexivity. }
  split; [exact CCExecProps.exec_loop_starved|].
  split.
  { intros op s. unfold CEval.exec_op. simpl. f_equal. lia. }
  split.
  { intros n op s H. destruct n as [|n]; [reflexivity|].
    cbn [CEval.exec_loop]. apply Z.leb_le in H. rewrite H. reflexivity. }
  split; vm_compute; reflexivity.
Qed.

(** [stack_clear] writes the heap only: [count], [first] and [last] keep
    their values. *)
Lemma stack_clear_fields (s s' : Seg.stack) :
  Seg.stack_clear s = Some s' ->
  Seg.size s' = Seg.size s /\ Seg.first s' = Seg.first s /\ Seg.last s' = Seg.last s.
Proof.
  unfold Seg.stack_clear.
  repeat match goal with
         | |- context [match ?e with _ => _ end] => destruct e
         end; intro H; inversion H; subst; repeat split.
Qed.

(** C6: [stack_clear] resets the first node but leaves [count] and
    [last] as they were, and its loop stops before freeing the node
    [last] points to.  After ["1"] and ["clear"] the stack prints nothing
    and [size] is 1.  After twelve pushes (a full first node and two
    values in a second one) and ["clear"], [last] still points to the
    second node, still allocated with its two values: the next push of
    ["5"] goes there, out of reach of [stack_print], and [size] is 13.
    The C++ version's [s->clear()] empties the list. *)
Theorem clear_keeps_count_and_last :
  (forall s s', Seg.stack_clear s = Some s' ->
     Seg.size s' = Seg.size s /\ Seg.first s' = Seg.first s /\ Seg.last s' = Seg.last s) /\
  shown (CEval.main_rounds Seg.stack_init CCEval.cmd0 ["1"; "clear"]) = Some [] /\
  size_after (CEval.main_rounds Seg.stack_init CCEval.cmd0 ["1"; "clear"]) = Some 1%Z /\
  ends (CEval.main_rounds Seg.stack_init CCEval.cmd0 (repeat "1" 12 ++ ["clear"]))
    = Some (0%nat, 1%nat, Some 2%Z) /\
  shown (CEval.main_rounds Seg.stack_init CCEval.cmd0 (repeat "1" 12 ++ ["clear"; "5"]))
    = Some [] /\
  size_after (CEval.main_rounds Seg.stack_init CCEval.cmd0 (repeat "1" 12 ++ ["clear"; "5"]))
    = Some 13%Z /\
  CCEval.exec_line [1%float] "clear" = CCEval.Returned 1 [] [].
Proof.
  split; [exact stack_clear_fields|].
  repeat split; vm_compute; reflexivity.
Qed.

(** C10: the C++ [exec_line] runs [pop_back] on the list whatever its
    size, and [pop_back] on an empty [std::list] is undefined behaviour;
    the C [stack_pop] returns 0 on an empty stack and changes nothing,
    so the C program shows an empty stack of size 0 after ["drop"]. *)
Theorem drop_on_empty_list_undefined :
  CCEval.pop_back [] = None /\
  CCEval.exec_line [] "drop" = CCEval.Undefined /\
  CCEval.exec_line [] "1 drop drop" = CCEval.Undefined /\
  (forall s w, Seg.count s = 0%Z -> Seg.stack_pop s w = Some (s, 0%Z, None)) /\
  shown (CEval.main_rounds Seg.stack_init CCEval.cmd0 ["drop"]) = Some [] /\
  size_after (CEval.main_rounds Seg.stack_init CCEval.cmd0 ["drop"]) = Some 0%Z.
Proof.
  split; [reflexivity|]. split; [vm_compute; reflexivity|].
  split; [vm_compute; reflexivity|].
  split; [intros s w H; unfold Seg.stack_pop; rewrite H; reflexivity|].
  split; vm_compute; reflexivity.
Qed.

End OpProps.

(** * The segmented stack: printing, [clear] and [destroy] on a
      well-formed stack *)

Module SegMore.
Import Conv Seg SegRepr SegProps.
Local Open Scope Z_scope.
Local Open Scope list_scope.
Local Arguments store : simpl never.

Lemma print_from_more (fuel d : nat) (m : addr -> option stack_node) (p : option addr)
  (r : list float) :
  print_from fuel m p = Some r -> print_from (fuel + d) m p = Some r.
Proof.
  assert (Hnone : forall f, print_from f m None = Some []) by (intro f; destruct f; reflexivity).
  revert p r. induction fuel as [|f IH]; intros p r H.
  - destruct p; [discriminate|]. rewrite Hnone in *. exact H.
  - destruct p as [a|]; [|rewrite Hnone in *; exact H]. simpl in *.
    destruct (m a) as [n|]; [|discriminate].
    destruct (read_vals (val n) 0 (Z.to_nat (ptr n))); [|discriminate].
    destruct (print_from f m (next n)) as [ys|] eqn:E; [|discriminate].
    rewrite (IH _ _ E). exact H.
Qed.

Lemma print_node (m : addr -> option stack_node) (a : addr) (xs : list float)
  (nx pv : option addr) (k : nat) (tl : list float) :
  node_ok m a xs nx pv -> print_from k m nx = Some tl ->
  print_from (S k) m (Some a) = Some (xs ++ tl).
Proof.
  intros (n & Hm & Hn & _ & Hp & Hr) Ht. simpl.
  rewrite Hm, Hp, Nat2Z.id, Hr, Hn, Ht. reflexivity.
Qed.

Lemma print_chain (m : addr -> option stack_node) (rest : list seg) :
  forall a xs nx k tl,
  node_ok m a xs nx (prev_of rest) -> full_chain m a rest -> print_from k m nx = Some tl ->
  print_from (k + S (length rest)) m (Some (last_addr a rest))
  = Some (concat (rev (map snd rest)) ++ xs ++ tl).
Proof.
  induction rest as [|[b ys] rest IH]; intros a xs nx k tl Hok Hch Ht.
  - simpl. rewrite Nat.add_1_r. apply (print_node m a xs nx None); assumption.
  - destruct Hch as (Hlt & Hokb & _ & Hch).
    pose proof (print_node m a xs nx _ k tl Hok Ht) as Ha.
    pose proof (IH b ys (Some a) (S k) (xs ++ tl) Hokb Hch Ha) as Hb.
    simpl. replace (k + S (S (length rest)))%nat with (S k + S (length rest))%nat by lia.
    rewrite Hb. f_equal. rewrite concat_app. simpl. rewrite app_nil_r, <- !app_assoc.
    reflexivity.
Qed.

Lemma chain_length (m : addr -> option stack_node) (rest : list seg) (a : addr) :
  full_chain m a rest -> (length rest <= a)%nat.
Proof.
  revert a. induction rest as [|[b ys] rest IH]; intros a H; simpl; [lia|].
  destruct H as (Hlt & _ & _ & H). specialize (IH b H). lia.
Qed.

(** X1: [stack_print] on a well-formed stack prints exactly the values it
    holds, oldest first, walking the nodes from [first] along [next]. *)
Theorem stack_print_repr (s : stack) (l : list float) :
  repr s l -> stack_print s = Some l.
Proof.
  intros (a & xs & rest & Hlast & Hfirst & Hok & Hle & Hch & Hl & Hc & Hbrk).
  unfold stack_print. rewrite Hfirst.
  pose proof (print_chain (mem s) rest a xs None 0 [] Hok Hch eq_refl) as H.
  pose proof (chain_length _ _ _ Hch) as Hlen.
  apply (print_from_more _ (brk s - S (length rest))) in H.
  replace (0 + S (length rest) + (brk s - S (length rest)))%nat with (S (brk s) - 1)%nat in H
    by lia.
  replace (S (brk s)) with (S (brk s) - 1 + 1)%nat by lia.
  apply (print_from_more _ 1) in H. rewrite H, app_nil_r, Hl. reflexivity.
Qed.

Lemma stack_print_repr_witness :
  exists s, push_all stack_init (upto 25) = Some s /\ stack_print s = Some (upto 25).
Proof.
  destruct (push_all_repr (upto 25) stack_init [] repr_init) as (s & Hp & Hr).
  { simpl. unfold INT_MAX. lia. }
  exists s. split; [exact Hp|]. exact (stack_print_repr s ([] ++ upto 25) Hr).
Defined.

Lemma linked_to_snoc (m : addr -> option stack_node) (cs : list addr) (a : addr)
  (e : option addr) :
  linked_to m cs (Some a) -> (exists n, m a = Some n /\ n.(next) = e) ->
  linked_to m (cs ++ [a]) e.
Proof.
  induction cs as [|c cs IH]; intros H Ha.
  - destruct Ha as (n & Hn & He). exists n. repeat split; assumption.
  - destruct H as (n & Hn & Hx & H). exists n. split; [exact Hn|]. split.
    + rewrite Hx. destruct cs; reflexivity.
    + apply IH; assumption.
Qed.

Lemma chain_linked (m : addr -> option stack_node) (rest : list seg) :
  forall a xs nx,
  node_ok m a xs nx (prev_of rest) -> full_chain m a rest -> linked_to m (node_addrs a rest) nx.
Proof.
  induction rest as [|[b ys] rest IH]; intros a xs nx Hok Hch.
  - destruct Hok as (n & Hn & Hx & _). exists n. repeat split; assumption.
  - destruct Hch as (Hlt & Hokb & _ & Hch).
    unfold node_addrs. simpl.
    apply (linked_to_snoc m (rev (map fst rest) ++ [b]) a nx).
    + exact (IH b ys (Some a) Hokb Hch).
    + destruct Hok as (n & Hn & Hx & _). exists n. split; assumption.
Qed.

Lemma node_addrs_below (m : addr -> option stack_node) (rest : list seg) :
  forall a, full_chain m a rest ->
  NoDup (node_addrs a rest) /\ Forall (fun c => (c <= a)%nat) (node_addrs a rest).
Proof.
  induction rest as [|[b ys] rest IH]; intros a Hch.
  - split; [constructor; [intros []|constructor]|repeat constructor].
  - destruct Hch as (Hlt & _ & _ & Hch). destruct (IH b Hch) as [Hnd Hb].
    unfold node_addrs in *. simpl. split.
    + apply NoDup_app; [exact Hnd|repeat constructor; intros []|].
      intros c Hc [Hca|[]]. rewrite Forall_forall in Hb. specialize (Hb c Hc). lia.
    + apply Forall_app. split; [|repeat constructor].
      eapply Forall_impl; [|exact Hb]. intros c Hc. simpl in Hc. lia.
Qed.

Lemma linked_to_ext (m m' : addr -> option stack_node) (cs : list addr) (e : option addr) :
  linked_to m cs e -> (forall b, In b cs -> m' b = m b) -> linked_to m' cs e.
Proof.
  revert m m'. induction cs as [|c cs IH]; intros m m' H E; [exact I|].
  destruct H as (n & Hn & Hx & H). exists n. split; [rewrite E; [exact Hn|left; reflexivity]|].
  split; [exact Hx|]. apply (IH m); [exact H|]. intros b Hb. apply E. right. exact Hb.
Qed.

Lemma in_removelast {A : Type} (x : A) (l : list A) : In x (removelast l) -> In x l.
Proof.
  induction l as [|y l IH]; [intros []|].
  destruct l as [|z l]; [intros []|]. intros [->|H]; [left; reflexivity|right; apply IH, H].
Qed.

(** the loop of [stack_clear] and [stack_destroy] along a linked list of
    distinct nodes frees every node but the final one *)
Lemma clear_loop_walk (cs : list addr) : forall c m fuel n,
  linked_to m (c :: cs) None -> NoDup (c :: cs) -> (length cs <= fuel)%nat -> m c = Some n ->
  exists m', clear_loop fuel m c n.(next) = Some m' /\
    forall b, (In b (removelast (c :: cs)) -> m' b = None) /\
              (~ In b (removelast (c :: cs)) -> m' b = m b).
Proof.
  induction cs as [|d cs IH]; intros c m fuel n Hl Hnd Hf Hc;
    destruct Hl as (n0 & Hn0 & Hx & Hl); rewrite Hc in Hn0; injection Hn0 as <-.
  - rewrite Hx. exists m. split; [destruct fuel; reflexivity|].
    intro b. split; [intros []|reflexivity].
  - rewrite Hx. destruct fuel as [|f]; [simpl in Hf; lia|].
    inversion Hnd as [|? ? Hcn Hnd']. subst.
    assert (Hdc : (d =? c)%nat = false) by (apply Nat.eqb_neq; intros ->; apply Hcn; left; reflexivity).
    pose (m1 := fun b => if (b =? c)%nat then None else m b).
    assert (Hl1 : linked_to m1 (d :: cs) None).
    { apply (linked_to_ext m); [exact Hl|]. intros b Hb. unfold m1.
      destruct (Nat.eqb_spec b c) as [->|]; [contradiction|reflexivity]. }
    destruct Hl as (nd & Hnd0 & _ & _).
    assert (Hd1 : m1 d = Some nd) by (unfold m1; rewrite Hdc; exact Hnd0).
    destruct (IH d m1 f nd Hl1 Hnd' ltac:(simpl in Hf; lia) Hd1) as (m' & Hm' & Hpt).
    exists m'. split.
    { simpl. unfold free. rewrite Hc, Hdc, Hnd0. exact Hm'. }
    intro b. change (removelast (c :: d :: cs)) with (c :: removelast (d :: cs)).
    destruct (Hpt b) as [Hin Hout]. split.
    + intros [<-|Hb]; [|apply Hin, Hb].
      rewrite Hout; [unfold m1; rewrite Nat.eqb_refl; reflexivity|].
      intro Hb. apply Hcn, in_removelast, Hb.
    + intro Hb. rewrite Hout by (intro; apply Hb; right; assumption).
      unfold m1. destruct (Nat.eqb_spec b c) as [->|]; [exfalso; apply Hb; left; reflexivity|].
      reflexivity.
Qed.

Lemma walk_linked (m : addr -> option stack_node) (cs : list addr) :
  forall c fuel, linked_to m (c :: cs) None -> (length cs < fuel)%nat ->
  node_walk fuel m (Some c) = c :: cs.
Proof.
  induction cs as [|d cs IH]; intros c fuel (n & Hn & Hx & Hl) Hf;
    (destruct fuel as [|f]; [simpl in Hf; lia|]); simpl; rewrite Hn, Hx.
  - destruct f; reflexivity.
  - f_equal. apply IH; [exact Hl|simpl in Hf; lia].
Qed.

Lemma node_addrs_hd (rest : list seg) :
  forall a, exists tl, node_addrs a rest = last_addr a rest :: tl.
Proof.
  induction rest as [|[b ys] rest IH]; intro a; [exists []; reflexivity|].
  destruct (IH b) as [tl Htl]. exists (tl ++ [a]).
  unfold node_addrs in *. simpl. rewrite Htl. reflexivity.
Qed.

(** the nodes of a well-formed stack, from [first] to [last] *)
Lemma repr_nodes (s : stack) (l : list float) :
  repr s l ->
  exists ys, nodes s = first s :: ys /\ NoDup (first s :: ys) /\
    linked_to (mem s) (first s :: ys) None /\ (length ys < S (brk s))%nat /\
    exists zs, first s :: ys = zs ++ [last s].
Proof.
  intros (a & xs & rest & Hlast & Hfirst & Hok & Hle & Hch & Hl & Hc & Hbrk).
  destruct (node_addrs_hd rest a) as [ys Hys].
  pose proof (chain_linked _ _ _ _ _ Hok Hch) as Hlk.
  destruct (node_addrs_below _ _ _ Hch) as [Hnd _].
  pose proof (chain_length _ _ _ Hch) as Hlen.
  assert (Hn : length (node_addrs a rest) = S (length rest))
    by (unfold node_addrs; rewrite length_app, length_rev, length_map; simpl; rewrite Nat.add_1_r; reflexivity).
  rewrite Hys in Hlk, Hnd, Hn. rewrite <- Hfirst in Hlk, Hnd, Hn.
  simpl in Hn. exists ys.
  split; [unfold nodes; apply walk_linked; [exact Hlk|lia]|].
  split; [exact Hnd|]. split; [exact Hlk|]. split; [lia|].
  exists (rev (map fst rest)). rewrite Hfirst, Hlast, <- Hys. reflexivity.
Qed.

Lemma linked_to_in (m : addr -> option stack_node) (cs : list addr) (e : option addr) (b : addr) :
  linked_to m cs e -> In b cs -> m b <> None.
Proof.
  induction cs as [|c cs IH]; [intros _ []|].
  intros (n & Hn & _ & H) [<-|Hb]; [rewrite Hn; discriminate|apply IH; assumption].
Qed.

Lemma snoc_split (f p1 x : addr) (ys zs : list addr) :
  f :: p1 :: ys = zs ++ [x] -> exists zs', zs = f :: zs' /\ p1 :: ys = zs' ++ [x].
Proof.
  destruct zs as [|z zs']; simpl; intro H.
  - discriminate.
  - injection H as -> H. exists zs'. split; [reflexivity|exact H].
Qed.

Lemma nodup_snoc_notin (zs : list addr) (x : addr) : NoDup (zs ++ [x]) -> ~ In x zs.
Proof.
  intro H. apply NoDup_remove_2 in H. rewrite app_nil_r in H. exact H.
Qed.

(** X2: [stack_clear] on a well-formed stack: afterwards [stack_print]
    prints nothing and the only node reachable from [first] is [first];
    every node strictly between [first] and [last] is freed, while the node
    [last] points to stays allocated as it was, and [count] and [last] are
    not changed. *)
Theorem stack_clear_repr (s : stack) (l : list float) :
  repr s l ->
  exists s', stack_clear s = Some s' /\
    stack_print s' = Some [] /\ nodes s' = [first s] /\
    size s' = size s /\ last s' = last s /\
    (forall b, In b (nodes s) -> b <> first s -> b <> last s -> mem s' b = None) /\
    (last s <> first s -> mem s' (last s) = mem s (last s)).
Proof.
  intro Hr. destruct (repr_nodes s l Hr) as (ys & Hnodes & Hnd & Hlk & Hlen & zs & Hzs).
  rewrite Hnodes.
  destruct Hlk as (fn & Hf & Hfx & Hlk').
  unfold stack_clear. rewrite Hf, Hfx.
  destruct ys as [|p1 ys'].
  - simpl. rewrite Hf, store_same.
    eexists. split; [reflexivity|].
    assert (Hl : last s = first s).
    { destruct zs as [|z zs']; simpl in Hzs.
      - injection Hzs as Hz. congruence.
      - injection Hzs as _ Hz. destruct zs'; discriminate. }
    split; [unfold stack_print; simpl; rewrite store_same; simpl; destruct (brk s); reflexivity|].
    split; [unfold nodes; simpl; rewrite store_same; simpl; destruct (brk s); reflexivity|].
    split; [reflexivity|]. split; [reflexivity|].
    split; [intros b [<-|[]] H; contradiction|].
    intro H. contradiction.
  - destruct (snoc_split _ _ _ _ _ Hzs) as (zs' & -> & Hzs').
    pose proof Hlk' as Hlk1. destruct Hlk1 as (n1 & Hn1 & _ & _).
    inversion Hnd as [|? ? Hfn Hnd']. subst.
    destruct (clear_loop_walk ys' p1 (mem s) (S (brk s)) n1 Hlk' Hnd'
                ltac:(simpl in Hlen; lia) Hn1) as (m1 & Hm1 & Hpt).
    rewrite Hn1, Hm1. simpl.
    rewrite Hzs' in Hpt. rewrite removelast_last in Hpt.
    rewrite Hzs' in Hfn, Hnd'.
    assert (Hf1 : m1 (first s) = Some fn).
    { destruct (Hpt (first s)) as [_ Hout]. rewrite Hout; [exact Hf|].
      intro Hin. apply Hfn, in_or_app. left. exact Hin. }
    rewrite Hf1, store_same.
    eexists. split; [reflexivity|].
    split; [unfold stack_print; simpl; rewrite store_same; simpl; destruct (brk s); reflexivity|].
    split; [unfold nodes; simpl; rewrite store_same; simpl; destruct (brk s); reflexivity|].
    split; [reflexivity|]. split; [reflexivity|].
    assert (Hlz : ~ In (last s) zs') by (apply nodup_snoc_notin; exact Hnd').
    split.
    + intros b Hb Hbf Hbl. simpl. rewrite !store_other by exact Hbf.
      destruct (Hpt b) as [Hin _]. apply Hin.
      destruct Hb as [Hb|Hb]; [congruence|]. change (In b (p1 :: ys')) in Hb. rewrite Hzs' in Hb.
      apply in_app_or in Hb. destruct Hb as [Hb|[Hb|[]]]; [exact Hb|congruence].
    + intro Hlf. simpl. rewrite !store_other by exact Hlf.
      destruct (Hpt (last s)) as [_ Hout]. apply Hout, Hlz.
Qed.

Lemma stack_clear_repr_witness :
  exists s, push_all stack_init (upto 25) = Some s /\
  exists s', stack_clear s = Some s' /\
    stack_print s' = Some [] /\ nodes s' = [first s] /\
    size s' = size s /\ last s' = last s /\
    (forall b, In b (nodes s) -> b <> first s -> b <> last s -> mem s' b = None) /\
    (last s <> first s -> mem s' (last s) = mem s (last s)).
Proof.
  destruct (push_all_repr (upto 25) stack_init [] repr_init) as (s & Hp & Hr).
  { simpl. unfold INT_MAX. lia. }
  exists s. split; [exact Hp|]. exact (stack_clear_repr s ([] ++ upto 25) Hr).
Defined.

(** X3: [stack_destroy] on a well-formed stack frees every node from
    [first] to the one before [last]; the node [last] points to is never
    freed and stays allocated as it was. *)
Theorem stack_destroy_repr (s : stack) (l : list float) :
  repr s l ->
  exists m', stack_destroy s = Some m' /\
    (forall b, In b (nodes s) -> b <> last s -> m' b = None) /\
    m' (last s) = mem s (last s) /\ mem s (last s) <> None.
Proof.
  intro Hr. destruct (repr_nodes s l Hr) as (ys & Hnodes & Hnd & Hlk & Hlen & zs & Hzs).
  pose proof Hlk as Hlk1. destruct Hlk1 as (fn & Hf & _ & _).
  destruct (clear_loop_walk ys (first s) (mem s) (S (brk s)) fn Hlk Hnd
              ltac:(lia) Hf) as (m' & Hm' & Hpt).
  rewrite Hzs, removelast_last in Hpt. rewrite Hzs in Hnd, Hlk.
  exists m'. split; [unfold stack_destroy; rewrite Hf; exact Hm'|].
  split.
  - intros b Hb Hbl. rewrite Hnodes, Hzs in Hb. apply (proj1 (Hpt b)).
    apply in_app_or in Hb. destruct Hb as [Hb|[Hb|[]]]; [exact Hb|congruence].
  - split; [apply (proj2 (Hpt (last s))), nodup_snoc_notin, Hnd|].
    apply (linked_to_in _ _ _ _ Hlk), in_or_app. right. left. reflexivity.
Qed.

Lemma stack_destroy_repr_witness :
  exists s, push_all stack_init (upto 25) = Some s /\
  exists m', stack_destroy s = Some m' /\
    (forall b, In b (nodes s) -> b <> last s -> m' b = None) /\
    m' (last s) = mem s (last s) /\ mem s (last s) <> None.
Proof.
  destruct (push_all_repr (upto 25) stack_init [] repr_init) as (s & Hp & Hr).
  { simpl. unfold INT_MAX. lia. }
  exists s. split; [exact Hp|]. exact (stack_destroy_repr s ([] ++ upto 25) Hr).
Defined.
End SegMore.

(** * The classifiers and the C++ line evaluator, further properties *)

Module ParseMore.
Import Tok Conv Shapes.
Local Open Scope list_scope.
Local Open Scope string_scope.

Lemma is_valid_double_loop_spec (s : string) : forall p,
  is_valid_double_loop p s = true <->
  (forall i c, String.get i s = Some c -> isdigit c = true \/ c = "."%char) /\
  (count_char "." s <= if p then 0 else 1)%nat.
Proof.
  induction s as [|c s IH]; intro p.
  - simpl. split; [intros _; split; [intros i c H; destruct i; discriminate|destruct p; lia]|auto].
  - simpl. destruct (Ascii.eqb_spec c ".") as [->|Hc].
    + destruct p; simpl.
      * split; [discriminate|]. intros [_ H]. lia.
      * rewrite IH. split.
        -- intros [H1 H2]. split; [|lia]. intros [|i] c' H; [injection H as <-; right; reflexivity|].
           exact (H1 i c' H).
        -- intros [H1 H2]. split; [|lia]. intros i c' H. exact (H1 (S i) c' H).
    + simpl. destruct (isdigit c) eqn:Hd; simpl.
      * rewrite IH. split.
        -- intros [H1 H2]. split; [|exact H2]. intros [|i] c' H; [injection H as <-; left; exact Hd|].
           exact (H1 i c' H).
        -- intros [H1 H2]. split; [|exact H2]. intros i c' H. exact (H1 (S i) c' H).
      * split; [discriminate|]. intros [H1 _].
        destruct (H1 0 c eq_refl) as [H|H]; [congruence|contradiction].
Qed.

(** X4: [is_valid_double] (the same function in both programs) accepts
    exactly the strings whose characters are all digits or dots, with at
    most one dot; no digit is required, so [""] and ["."] pass. *)
Theorem is_valid_double_spec (s : string) :
  is_valid_double s = true <->
  (forall i c, String.get i s = Some c -> isdigit c = true \/ c = "."%char) /\
  (count_char "." s <= 1)%nat.
Proof. exact (is_valid_double_loop_spec s false). Qed.

Lemma op_char_cases (c : ascii) :
  is_op_char c = true -> c = "+"%char \/ c = "-"%char \/ c = "*"%char \/ c = "/"%char.
Proof.
  unfold is_op_char.
  destruct (Ascii.eqb_spec c "+"); [auto|]. destruct (Ascii.eqb_spec c "-"); [auto|].
  destruct (Ascii.eqb_spec c "*"); [auto|]. destruct (Ascii.eqb_spec c "/"); [auto|].
  discriminate.
Qed.



Lemma length_app_str (s1 s2 : string) :
  String.length (s1 ++ s2) = (String.length s1 + String.length s2)%nat.
Proof. induction s1 as [|c s1 IH]; simpl; [reflexivity|rewrite IH; reflexivity]. Qed.










Lemma stod_strtod (s : string) (v : float) : stod s = inr v -> strtod s = v.
Proof.
  unfold stod, strtod. destruct (sign s) as [neg body].
  destruct (scan false body 0 0 O) as [[m f] nd]. destruct nd as [|nd]; [discriminate|].
  destruct (is_infinity _); [discriminate|]. destruct (_ && _); [discriminate|].
  congruence.
Qed.

Lemma stol_strtol (s : string) (m : Z) : stol s = inr m -> strtol s = m.
Proof.
  unfold stol, strtol. destruct (scan_int s 0 O) as [m' nd]. destruct nd; [discriminate|].
  destruct (Z.leb_spec m' LONG_MAX) as [Hle|Hle]; [|discriminate]. intro Hm; injection Hm as <-. lia.
Qed.

Lemma lookup_c_table (tok : string) :
  lookup_cmd C.rpn_commands tok =
  if String.eqb tok "quit" then Some EXIT else lookup_cmd CC.rpn_commands tok.
Proof. reflexivity. Qed.

Lemma parse_token_parse_buf (tok : string) (cmd cmd' : rpn_cmd) :
  CC.parse_token tok cmd = inr (0%Z, cmd') -> C.parse_buf tok cmd = (0%Z, cmd').
Proof.
  intro H. unfold CC.parse_token, C.parse_buf in *. cbv zeta in *.
  rewrite lookup_c_table.
  destruct (String.eqb_spec tok "quit") as [->|Hq]; [vm_compute in H; discriminate|].
  unfold CC.ret, CC.cmd_double, C.cmd_double in *.
  repeat match type of H with
  | context [if ?b then _ else _] => destruct b
  | context [match ?e with Some _ => _ | None => _ end] => destruct e
  | context [match ?e with inl _ => _ | inr _ => _ end] => destruct e eqn:?
  end; try discriminate; try congruence; injection H as H'; subst cmd'.
  all: try (match goal with
       | E : (match stod ?x with _ => _ end) = inr _ |- _ =>
           destruct (stod x) eqn:Hs; [discriminate|]; injection E as <-;
           rewrite (stod_strtod _ _ Hs); reflexivity
       end).
  erewrite stol_strtol by eassumption; reflexivity.
Qed.

(** X7: every token the C++ [parse_token] accepts (return value 0, no
    exception) the C [parse_buf] accepts as well, with the same command. *)
Theorem parse_token_accepted_by_parse_buf (tok : string) (cmd cmd' : rpn_cmd) :
  CC.parse_token tok cmd = inr (0%Z, cmd') -> C.parse_buf tok cmd = (0%Z, cmd').
Proof. apply parse_token_parse_buf. Qed.

Lemma parse_token_accepted_by_parse_buf_witness :
  CC.parse_token "12.5" CCEval.cmd0 = inr (0%Z, cmd_double_val CCEval.cmd0 (strtod "12.5")) /\
  C.parse_buf "12.5" CCEval.cmd0 = (0%Z, cmd_double_val CCEval.cmd0 (strtod "12.5")).
Proof.
  assert (H : CC.parse_token "12.5" CCEval.cmd0 =
              inr (0%Z, cmd_double_val CCEval.cmd0 (strtod "12.5"))) by (vm_compute; reflexivity).
  split; [exact H|]. exact (parse_token_accepted_by_parse_buf _ _ _ H).
Defined.

(** X8: [parse_buf] and [parse_token] only return 0 or -1, and [exec_line]
    only returns 1 or -1, so the [case 0] of the C++ [main]'s switch on
    the result of [exec_line] is never taken. *)
Theorem return_codes (tok line : string) (cmd : rpn_cmd) (s : list float) :
  (fst (C.parse_buf tok cmd) = 0%Z \/ fst (C.parse_buf tok cmd) = (-1)%Z) /\
  (forall r cmd', CC.parse_token tok cmd = inr (r, cmd') -> r = 0%Z \/ r = (-1)%Z) /\
  (forall r s' out, CCEval.exec_line s line = CCEval.Returned r s' out -> r = 1%Z \/ r = (-1)%Z).
Proof.
  split; [|split].
  - unfold C.parse_buf. cbv zeta.
    repeat match goal with
    | |- context [if ?b then _ else _] => destruct b
    | |- context [match ?e with Some _ => _ | None => _ end] => destruct e
    end; simpl; auto.
  - intros r cmd' H. unfold CC.parse_token, CC.ret, CC.cmd_double in H. cbv zeta in H.
    repeat match type of H with
    | context [if ?b then _ else _] => destruct b
    | context [match ?e with Some _ => _ | None => _ end] => destruct e
    | context [match ?e with inl _ => _ | inr _ => _ end] => destruct e
    end; try discriminate; injection H as <- _; auto.
  - unfold CCEval.exec_line. generalize (CCEval.tokens line) CCEval.cmd0 s ([] : list string).
    intro toks. induction toks as [|tk toks IH]; intros c0 s0 o0 r s' out H; simpl in H.
    + injection H as <- _ _. auto.
    + destruct (CC.parse_token tk c0) as [e|[r0 c1]]; [discriminate|].
      destruct (Z.eqb_spec r0 (-1)) as [->|]; [injection H as <- _ _; auto|].
      destruct (CCEval.dispatch c1 s0) as [[s1 o1]|]; [|discriminate]. eapply IH; exact H.
Qed.

Lemma is_op_char_of (c : ascii) :
  ((c =? "+")%char || (c =? "-")%char) = true \/ ((c =? "*")%char || (c =? "/")%char) = true ->
  is_op_char c = true.
Proof.
  unfold is_op_char. destruct (c =? "+")%char, (c =? "-")%char, (c =? "*")%char, (c =? "/")%char;
  simpl; intuition discriminate.
Qed.

Lemma dispatch_cmd_op (c1 c2 : rpn_cmd) (n : Z) (ch : ascii) (s : list float) :
  is_op_char ch = true -> CCEval.dispatch (cmd_op c1 n ch) s = CCEval.dispatch (cmd_op c2 n ch) s.
Proof.
  intro H. destruct (op_char_cases ch H) as [ -> | [ -> | [ -> | -> ]]]; reflexivity.
Qed.

Lemma lookup_cc_ty (tok : string) (ty : rpn_type) :
  lookup_cmd CC.rpn_commands tok = Some ty -> ty = DROP \/ ty = CLEAR.
Proof.
  simpl. destruct (tok =? "drop")%string; [intro H; injection H as <-; auto|].
  destruct (tok =? "clear")%string; [intro H; injection H as <-; auto|discriminate].
Qed.

(** what [parse_token] decides does not depend on the command it is
    handed: the same exception, or the same return value and, unless it
    is -1, a command the [switch] of [exec_line] treats the same *)
Lemma parse_token_indep (tok : string) (c1 c2 : rpn_cmd) :
  match CC.parse_token tok c1, CC.parse_token tok c2 with
  | inl e1, inl e2 => e1 = e2
  | inr (r1, c1'), inr (r2, c2') =>
      r1 = r2 /\ (r1 <> (-1)%Z -> forall s, CCEval.dispatch c1' s = CCEval.dispatch c2' s)
  | _, _ => False
  end.
Proof.
  unfold CC.parse_token, CC.ret, CC.cmd_double. cbv zeta.
  destruct (_ =? 0)%nat; [split; [reflexivity|contradiction]|].
  destruct (lookup_cmd CC.rpn_commands tok) as [ty|] eqn:Hl.
  { split; [reflexivity|]. intros _ s. destruct (lookup_cc_ty tok ty Hl) as [->| ->]; reflexivity. }
  destruct ((front tok =? "+")%char || (front tok =? "-")%char) eqn:Hpm.
  { destruct (1 <? _)%nat; [|split; [reflexivity|intros; apply dispatch_cmd_op, is_op_char_of; auto]].
    destruct (is_valid_double _); [|split; [reflexivity|contradiction]].
    destruct (stod tok); [reflexivity|split; reflexivity]. }
  destruct ((front tok =? "*")%char || (front tok =? "/")%char) eqn:Hmd.
  { destruct (1 <? _)%nat; [split; [reflexivity|contradiction]|].
    split; [reflexivity|intros; apply dispatch_cmd_op, is_op_char_of; auto]. }
  destruct (is_valid_double _); [destruct (stod tok); [reflexivity|split; reflexivity]|].
  destruct (is_op_char _ && _) eqn:Hop; [|split; [reflexivity|contradiction]].
  apply andb_prop in Hop as [Hop _].
  destruct (stol tok); [reflexivity|split; [reflexivity|intros; apply dispatch_cmd_op, Hop]].
Qed.

Lemma run_tokens_indep (toks : list string) (c1 c2 : rpn_cmd) (s : list float) (out : list string) :
  CCEval.run_tokens toks c1 s out = CCEval.run_tokens toks c2 s out.
Proof.
  revert c1 c2 s out. induction toks as [|tk toks IH]; intros c1 c2 s out; [reflexivity|].
  simpl. pose proof (parse_token_indep tk c1 c2) as Hi.
  destruct (CC.parse_token tk c1) as [e1|[r1 c1']], (CC.parse_token tk c2) as [e2|[r2 c2']];
    try contradiction; [congruence|].
  destruct Hi as [<- Hd]. destruct (Z.eqb_spec r1 (-1)); [reflexivity|].
  rewrite (Hd n s). destruct (CCEval.dispatch c2' s) as [[s' o]|]; [apply IH|reflexivity].
Qed.

Lemma run_tokens_out (toks : list string) (c : rpn_cmd) (s : list float) (o o' : list string) :
  CCEval.run_tokens toks c s (o ++ o') =
  match CCEval.run_tokens toks c s o' with
  | CCEval.Returned r s2 o2 => CCEval.Returned r s2 (o ++ o2)
  | x => x
  end.
Proof.
  revert c s o'. induction toks as [|tk toks IH]; intros c s o'; [reflexivity|].
  simpl. destruct (CC.parse_token tk c) as [e|[r c']]; [reflexivity|].
  destruct (r =? -1)%Z; [reflexivity|].
  destruct (CCEval.dispatch c' s) as [[s1 o1]|]; [|reflexivity].
  rewrite <- app_assoc. apply IH.
Qed.

Lemma run_tokens_app (t1 t2 : list string) (c c2 : rpn_cmd) (s : list float) (out : list string) :
  CCEval.run_tokens (t1 ++ t2) c s out =
  match CCEval.run_tokens t1 c s out with
  | CCEval.Returned r s' o => if (r =? 1)%Z then CCEval.run_tokens t2 c2 s' o else CCEval.Returned r s' o
  | x => x
  end.
Proof.
  revert c s out. induction t1 as [|tk t1 IH]; intros c s out; [apply run_tokens_indep|].
  simpl. destruct (CC.parse_token tk c) as [e|[r c']]; [reflexivity|].
  destruct (Z.eqb_spec r (-1)) as [->|]; [reflexivity|].
  destruct (CCEval.dispatch c' s) as [[s1 o1]|]; [apply IH|reflexivity].
Qed.

Lemma split_sp_app (a b : string) (cur : string) :
  CCEval.split_sp (a ++ String " " b) cur = (CCEval.split_sp a cur ++ CCEval.split_sp b "")%list.
Proof.
  revert cur. induction a as [|c a IH]; intro cur; [reflexivity|].
  simpl. destruct (c =? " ")%char; [rewrite IH; reflexivity|apply IH].
Qed.

(** X9: running the line [a ++ " " ++ b] is running [a], then, if [a]
    returned 1, running [b] on the stack [a] left, with the printed lines
    concatenated; a return of -1, an exception or undefined behaviour in
    [a] ends the line there. *)
Theorem exec_line_app (s : list float) (a b : string) :
  CCEval.exec_line s (a ++ String " " b) =
  match CCEval.exec_line s a with
  | CCEval.Returned r s' o =>
      if (r =? 1)%Z then
        match CCEval.exec_line s' b with
        | CCEval.Returned r2 s2 o2 => CCEval.Returned r2 s2 (o ++ o2)
        | x => x
        end
      else CCEval.Returned r s' o
  | x => x
  end.
Proof.
  unfold CCEval.exec_line, CCEval.tokens. rewrite split_sp_app.
  rewrite (run_tokens_app _ _ _ CCEval.cmd0).
  destruct (CCEval.run_tokens (CCEval.split_sp a "") CCEval.cmd0 s []) as [r s' o| |]; try reflexivity.
  destruct (r =? 1)%Z; [|reflexivity].
  rewrite <- (app_nil_r o) at 1. apply run_tokens_out.
Qed.
End ParseMore.

(** * The C and C++ evaluators side by side *)

Module OpMore.
Import Conv Seg SegRepr SegProps.
Local Open Scope list_scope.

Lemma repr_count (s : stack) (l : list float) : repr s l -> count s = Z.of_nat (length l).
Proof. intros (a & xs & rest & _ & _ & _ & _ & _ & _ & Hc & _). exact Hc. Qed.

(** one iteration of the C loop on a well-formed stack of two operands or
    more: both operands are popped, then the operation is applied *)
Lemma c_loop_step (n : nat) (s : stack) (op : rpn_op) (l : list float) (y x : float) :
  repr s (l ++ [y; x]) ->
  exists s2, repr s2 l /\
    CEval.exec_loop (S n) s op =
    match op with
    | SUM => s3 <- stack_push s2 (x + y)%float ;; CEval.exec_loop n s3 op
    | SUB => s3 <- stack_push s2 (y - x)%float ;; CEval.exec_loop n s3 op
    | MUL => s3 <- stack_push s2 (x * y)%float ;; CEval.exec_loop n s3 op
    | DIV =>
        if (x =? zero)%float then Some (s2, [CEval.div_zero_msg])
        else s3 <- stack_push s2 (y / x)%float ;; CEval.exec_loop n s3 op
    end.
Proof.
  intro Hr.
  assert (Hc : (count s <=? 1)%Z = false).
  { rewrite (repr_count _ _ Hr), length_app. apply Z.leb_gt. simpl. lia. }
  replace (l ++ [y; x]) with ((l ++ [y]) ++ [x]) in Hr by (rewrite <- app_assoc; reflexivity).
  destruct (stack_pop_repr s (l ++ [y]) x Hr) as (s1 & Hp1 & Hr1).
  destruct (stack_pop_repr s1 l y Hr1) as (s2 & Hp2 & Hr2).
  exists s2. split; [exact Hr2|].
  cbn [CEval.exec_loop]. rewrite Hc, Hp1. simpl. rewrite Hp2. reflexivity.
Qed.

Lemma two_or_more (l : list float) :
  (1 < length l)%nat -> exists l0 y x, l = l0 ++ [y; x].
Proof.
  intro H. destruct (snoc_cases l) as [->|(l1 & x & ->)]; [simpl in H; lia|].
  destruct (snoc_cases l1) as [->|(l0 & y & ->)]; [simpl in H; lia|].
  exists l0, y, x. rewrite <- app_assoc. reflexivity.
Qed.

(** the loops of the two programs compute the same values and print the
    same lines *)
Lemma exec_loop_agree (n : nat) (op : rpn_op) (s : stack) (l : list float) :
  repr s l -> (Z.of_nat (length l) <= INT_MAX)%Z ->
  exists s' l' out,
    CCEval.exec_loop n op l = Some (l', out) /\
    CEval.exec_loop n s op = Some (s', out) /\ repr s' l'.
Proof.
  revert s l. induction n as [|n IH]; intros s l Hr Hb.
  { exists s, l, []. split; [reflexivity|]. split; [reflexivity|exact Hr]. }
  destruct (Nat.le_gt_cases (length l) 1) as [Hle|Hgt].
  { exists s, l, []. split; [apply CCExecProps.exec_loop_starved, Hle|].
    split; [|exact Hr]. cbn [CEval.exec_loop].
    rewrite (repr_count _ _ Hr). replace (Z.of_nat (length l) <=? 1)%Z with true
      by (symmetry; apply Z.leb_le; lia). reflexivity. }
  destruct (two_or_more l Hgt) as (l0 & y & x & ->).
  destruct (c_loop_step n s op l0 y x Hr) as (s2 & Hr2 & Hstep).
  rewrite CCExecProps.exec_loop_step, Hstep.
  rewrite length_app in Hb. simpl in Hb.
  assert (Hpush : forall v, exists s3, stack_push s2 v = Some s3 /\ repr s3 (l0 ++ [v]) /\
                    (Z.of_nat (length (l0 ++ [v])) <= INT_MAX)%Z).
  { intro v. destruct (stack_push_repr s2 l0 v Hr2) as (s3 & Hp & Hr3); [lia|].
    exists s3. split; [exact Hp|]. split; [exact Hr3|]. rewrite length_app. simpl. lia. }
  destruct op.
  1-3: match goal with |- context [stack_push _ ?v] =>
         destruct (Hpush v) as (s3 & -> & Hr3 & Hb3); exact (IH s3 _ Hr3 Hb3) end.
  destruct (x =? zero)%float.
  - exists s2, l0, [CEval.div_zero_msg]. split; [reflexivity|]. split; [reflexivity|exact Hr2].
  - match goal with |- context [stack_push _ ?v] =>
      destruct (Hpush v) as (s3 & -> & Hr3 & Hb3); exact (IH s3 _ Hr3 Hb3) end.
Qed.

(** the [int] [size() - 1] of C++ is the C [count - 1], for an empty
    stack as well *)
Lemma size_minus_1_count (s : stack) (l : list float) :
  repr s l -> (Z.of_nat (length l) <= INT_MAX)%Z -> CCEval.size_minus_1 l = (count s - 1)%Z.
Proof.
  intros Hr Hb. rewrite (repr_count _ _ Hr). unfold CCEval.size_minus_1.
  destruct (length l) as [|k].
  - reflexivity.
  - rewrite Z.mod_small by (unfold INT_MAX in Hb; lia).
    rewrite OpProps.to_int_small by (unfold INT_MAX in *; lia). lia.
Qed.

Lemma exec_op_agree_aux (s : stack) (l : list float) (op : rpn_op) (times : Z) :
  repr s l -> (Z.of_nat (length l) <= INT_MAX)%Z ->
  exists s' l' out,
    CCEval.exec_op l op times = Some (l', out) /\
    CEval.exec_op s op times = Some (s', out) /\ repr s' l'.
Proof.
  intros Hr Hb. unfold CCEval.exec_op, CEval.exec_op.
  rewrite (size_minus_1_count s l Hr Hb). apply exec_loop_agree; assumption.
Qed.

(** X10: on a well-formed segmented stack holding the same values as the
    C++ list, the C and C++ [exec_op] compute the same values and print
    the same lines, whatever the operation and the repeat count. *)
Theorem exec_op_agree (s : stack) (l : list float) (op : rpn_op) (times : Z) :
  repr s l -> (Z.of_nat (length l) <= INT_MAX)%Z ->
  exists s' l' out,
    CCEval.exec_op l op times = Some (l', out) /\
    CEval.exec_op s op times = Some (s', out) /\ repr s' l'.
Proof. apply exec_op_agree_aux. Qed.

Lemma exec_op_agree_witness :
  exists s' l' out,
    CCEval.exec_op (upto 12) DIV 0 = Some (l', out) /\
    CEval.exec_op (match push_all stack_init (upto 12) with Some s => s | None => stack_init end)
      DIV 0 = Some (s', out) /\ repr s' l'.
Proof.
  destruct (push_all_repr (upto 12) stack_init [] repr_init) as (s & Hp & Hr).
  { simpl. unfold INT_MAX. lia. }
  rewrite Hp. apply (exec_op_agree s (upto 12) DIV 0); [exact Hr|].
  simpl. unfold INT_MAX. lia.
Defined.

(** [stack_pop] with [ret == NULL] leaves the stack as the call with a
    [ret] does *)
Lemma stack_pop_no_ret (s s' : stack) (x : float) :
  stack_pop s true = Some (s', 1%Z, Some x) -> stack_pop s false = Some (s', 1%Z, None).
Proof.
  unfold stack_pop. destruct (count s =? 0)%Z; [discriminate|].
  destruct (mem s (last s)) as [n|]; [|discriminate].
  destruct (if (ptr n =? 0)%Z then _ else _) as [s1|]; [|discriminate].
  destruct (mem s1 (last s1)) as [l1|]; [|discriminate]. simpl.
  destruct (in_bounds (ptr l1 - 1)); [|discriminate]. simpl.
  destruct (val l1 (ptr l1 - 1)); [|discriminate].
  intro H. injection H as <- _. reflexivity.
Qed.

Lemma main_round_agree_aux (s : stack) (l : list float) (buf : string) (cmd cmd' : rpn_cmd)
  (l' : list float) (out : list string) :
  repr s l -> (Z.of_nat (length l) < INT_MAX)%Z ->
  CC.parse_token buf cmd = inr (0%Z, cmd') -> cmd'.(t) <> CLEAR ->
  CCEval.dispatch cmd' l = Some (l', out) ->
  exists s', CEval.main_round s cmd buf = Some (CEval.Continue s' cmd' out) /\ repr s' l'.
Proof.
  intros Hr Hb Hp Ht Hd. unfold CEval.main_round.
  rewrite (ParseMore.parse_token_parse_buf _ _ _ Hp). simpl.
  unfold CCEval.dispatch in Hd. destruct (t cmd') eqn:Hty.
  - injection Hd as <- <-.
    match goal with |- context [stack_push s ?v] =>
      destruct (stack_push_repr s l v Hr Hb) as (s' & -> & Hr') end.
    exists s'. split; [reflexivity|exact Hr'].
  - assert (Hb' : (Z.of_nat (length l) <= INT_MAX)%Z) by lia.
    destruct (Z.eqb (op_times cmd') 0) eqn:Hz.
    + rewrite <- (size_minus_1_count s l Hr Hb') .
      destruct (exec_op_agree_aux s l (op cmd') (CCEval.size_minus_1 l) Hr Hb')
        as (s' & l2 & o & Hc & Hcc & Hr').
      rewrite Hd in Hc. injection Hc as <- <-. rewrite Hcc. exists s'. split; [reflexivity|exact Hr'].
    + destruct (exec_op_agree_aux s l (op cmd') (op_times cmd') Hr Hb')
        as (s' & l2 & o & Hc & Hcc & Hr').
      rewrite Hd in Hc. injection Hc as <- <-. rewrite Hcc. exists s'. split; [reflexivity|exact Hr'].
  - destruct (snoc_cases l) as [->|(l0 & x & ->)]; [discriminate|].
    rewrite CCExecProps.pop_back_snoc in Hd. injection Hd as <- <-.
    destruct (stack_pop_repr s l0 x Hr) as (s' & Hpop & Hr').
    rewrite (stack_pop_no_ret s s' x Hpop). exists s'. split; [reflexivity|exact Hr'].
  - contradiction.
  - exfalso. revert Hty. clear -Hp. intro Hty.
    unfold CC.parse_token, CC.ret in Hp. cbv zeta in Hp.
    repeat match type of Hp with
    | context [if ?b then _ else _] => destruct b
    | context [match ?e with Some _ => _ | None => _ end] => destruct e eqn:?
    | context [match ?e with inl _ => _ | inr _ => _ end] => destruct e eqn:?
    end; try discriminate; injection Hp as <-; simpl in Hty; try discriminate.
    all: try (match goal with E : CC.cmd_double _ _ = inr _ |- _ =>
           unfold CC.cmd_double in E; destruct (stod _); [discriminate|];
           injection E as <-; discriminate end).
    all: match goal with H : lookup_cmd CC.rpn_commands _ = Some _ |- _ =>
      destruct (ParseMore.lookup_cc_ty _ _ H) as [->| ->]; discriminate end.
Qed.

(** X11: for a line of one token that the C++ [parse_token] accepts and
    that is not [clear], on a well-formed segmented stack holding the
    values of the C++ list, a round of the C [main] prints what the C++
    [switch] prints and leaves a stack holding the same values; [drop]
    included, which C performs with [stack_pop(stack, NULL)]. *)
Theorem main_round_agree (s : stack) (l : list float) (buf : string) (cmd cmd' : rpn_cmd)
  (l' : list float) (out : list string) :
  repr s l -> (Z.of_nat (length l) < INT_MAX)%Z ->
  CC.parse_token buf cmd = inr (0%Z, cmd') -> cmd'.(t) <> CLEAR ->
  CCEval.dispatch cmd' l = Some (l', out) ->
  exists s', CEval.main_round s cmd buf = Some (CEval.Continue s' cmd' out) /\ repr s' l'.
Proof. apply main_round_agree_aux. Qed.

Lemma exec_line_op_char (l : list float) (c : ascii) (o : rpn_op) :
  op_of_char c = Some o ->
  CCEval.exec_line l (String c "") =
  match CCEval.exec_loop 1 o l with
  | Some (l', out) => CCEval.Returned 1 l' out
  | None => CCEval.Undefined
  end.
Proof.
  intro Ho. unfold op_of_char in Ho.
  destruct (Ascii.eqb_spec c "+") as [->|]; [injection Ho as <-; reflexivity|].
  destruct (Ascii.eqb_spec c "-") as [->|]; [injection Ho as <-; reflexivity|].
  destruct (Ascii.eqb_spec c "*") as [->|]; [injection Ho as <-; reflexivity|].
  destruct (Ascii.eqb_spec c "/") as [->|]; [injection Ho as <-; reflexivity|discriminate].
Qed.

(** a one-character operator line in C, on a well-formed stack *)
Lemma c_op_round (l : list float) (s : stack) (cmd : rpn_cmd) (c : ascii) (o : rpn_op)
  (l' : list float) (out : list string) :
  repr s l -> (Z.of_nat (length l) < INT_MAX)%Z -> op_of_char c = Some o ->
  CCEval.exec_loop 1 o l = Some (l', out) ->
  exists s', CEval.main_round s cmd (String c "") = Some (CEval.Continue s' (cmd_op cmd 1 c) out)
             /\ repr s' l'.
Proof.
  intros Hr Hb Ho Hl.
  assert (Hop : Tok.is_op_char c = true).
  { unfold op_of_char in Ho. apply ParseMore.is_op_char_of.
    destruct (c =? "+")%char, (c =? "-")%char, (c =? "*")%char, (c =? "/")%char;
      simpl; auto; discriminate. }
  apply (main_round_agree_aux s l (String c "") cmd (cmd_op cmd 1 c) l' out Hr Hb).
  - destruct (ParseMore.op_char_cases c Hop) as [ -> | [ -> | [ -> | -> ]]]; reflexivity.
  - discriminate.
  - unfold CCEval.dispatch, CCEval.exec_op, cmd_op. simpl. rewrite Ho. exact Hl.
Qed.

(** X12: the operand on top of the stack is the right operand: with [y]
    below [x] on top, the one-token lines [+], [-], [*] and [/] replace
    them by [x + y], [y - x], [x * y] and [y / x] (by nothing, with the
    division message printed, when [x] is zero), in C++ and, on a
    well-formed segmented stack, in C. *)
Theorem operand_order (l : list float) (y x : float) :
  CCEval.exec_line (l ++ [y; x]) "+" = CCEval.Returned 1 (l ++ [(x + y)%float]) [] /\
  CCEval.exec_line (l ++ [y; x]) "-" = CCEval.Returned 1 (l ++ [(y - x)%float]) [] /\
  CCEval.exec_line (l ++ [y; x]) "*" = CCEval.Returned 1 (l ++ [(x * y)%float]) [] /\
  CCEval.exec_line (l ++ [y; x]) "/" =
    (if (x =? zero)%float then CCEval.Returned 1 l [CCEval.div_zero_msg]
     else CCEval.Returned 1 (l ++ [(y / x)%float]) []) /\
  (forall (s : stack) (cmd : rpn_cmd),
     repr s (l ++ [y; x]) -> (Z.of_nat (length l + 2) < INT_MAX)%Z ->
     (exists s', CEval.main_round s cmd "+" = Some (CEval.Continue s' (cmd_op cmd 1 "+") []) /\
                 repr s' (l ++ [(x + y)%float])) /\
     (exists s', CEval.main_round s cmd "-" = Some (CEval.Continue s' (cmd_op cmd 1 "-") []) /\
                 repr s' (l ++ [(y - x)%float])) /\
     (exists s', CEval.main_round s cmd "*" = Some (CEval.Continue s' (cmd_op cmd 1 "*") []) /\
                 repr s' (l ++ [(x * y)%float])) /\
     (exists s', CEval.main_round s cmd "/" =
                   Some (CEval.Continue s' (cmd_op cmd 1 "/")
                           (if (x =? zero)%float then [CEval.div_zero_msg] else [])) /\
                 repr s' (if (x =? zero)%float then l else l ++ [(y / x)%float]))).
Proof.
  split; [rewrite (exec_line_op_char _ "+" SUM), CCExecProps.exec_loop_step by reflexivity;
          reflexivity|].
  split; [rewrite (exec_line_op_char _ "-" SUB), CCExecProps.exec_loop_step by reflexivity;
          reflexivity|].
  split; [rewrite (exec_line_op_char _ "*" MUL), CCExecProps.exec_loop_step by reflexivity;
          reflexivity|].
  split; [rewrite (exec_line_op_char _ "/" DIV), CCExecProps.exec_loop_step by reflexivity;
          destruct (x =? zero)%float; reflexivity|].
  intros s cmd Hr Hb.
  assert (Hb' : (Z.of_nat (length (l ++ [y; x])) < INT_MAX)%Z) by (rewrite length_app; simpl; lia).
  split; [apply (c_op_round (l ++ [y; x]) s cmd "+" SUM (l ++ [(x + y)%float]) []); [exact Hr|exact Hb'|reflexivity|];
          rewrite CCExecProps.exec_loop_step; reflexivity|].
  split; [apply (c_op_round (l ++ [y; x]) s cmd "-" SUB (l ++ [(y - x)%float]) []); [exact Hr|exact Hb'|reflexivity|];
          rewrite CCExecProps.exec_loop_step; reflexivity|].
  split; [apply (c_op_round (l ++ [y; x]) s cmd "*" MUL (l ++ [(x * y)%float]) []); [exact Hr|exact Hb'|reflexivity|];
          rewrite CCExecProps.exec_loop_step; reflexivity|].
  apply (c_op_round (l ++ [y; x]) s cmd "/" DIV
           (if (x =? zero)%float then l else l ++ [(y / x)%float])
           (if (x =? zero)%float then [CEval.div_zero_msg] else [])); [exact Hr|exact Hb'|reflexivity|].
  rewrite CCExecProps.exec_loop_step. unfold CEval.div_zero_msg.
  destruct (x =? zero)%float; reflexivity.
Qed.

Lemma main_round_agree_witness :
  exists s', CEval.main_round
    (match push_all stack_init (upto 12) with Some s => s | None => stack_init end)
    CCEval.cmd0 "drop" = Some (CEval.Continue s' (set_t CCEval.cmd0 DROP) []) /\
    repr s' (upto 11).
Proof.
  destruct (push_all_repr (upto 12) stack_init [] repr_init) as (s & Hp & Hr).
  { simpl. unfold INT_MAX. lia. }
  rewrite Hp. apply (main_round_agree s (upto 12) "drop" CCEval.cmd0 (set_t CCEval.cmd0 DROP)
                       (upto 11) []); [exact Hr| simpl; unfold INT_MAX; lia
                       | reflexivity | discriminate | vm_compute; reflexivity].
Defined.

End OpMore.

(** * The input loop of the C [main] *)

Module MainMore.
Import Shapes.
Local Open Scope list_scope.
Local Open Scope string_scope.

Lemma append_nil_str (a : string) : a ++ "" = a.
Proof. induction a as [|x a IH]; simpl; [reflexivity|rewrite IH; reflexivity]. Qed.

Lemma append_assoc_str (a b c : string) : (a ++ b) ++ c = a ++ (b ++ c).
Proof. induction a as [|x a IH]; simpl; [reflexivity|rewrite IH; reflexivity]. Qed.

Lemma fgets_nonempty (input : string) :
  input <> "" -> CMain.fgets input = Some (CMain.fgets_read (CMain.STDIN_BUF_SIZE - 1) input).
Proof. destruct input; [contradiction|reflexivity]. Qed.

Lemma fgets_read_line (n : nat) (l rest : string) :
  line_ok l = true -> (String.length l < n)%nat ->
  CMain.fgets_read n (l ++ String "010" rest) = (l ++ String "010" "", rest).
Proof.
  revert n. induction l as [|c l IH]; intros n Hl Hn; (destruct n as [|n]; [simpl in Hn; lia|]).
  - reflexivity.
  - simpl in Hl. apply andb_prop in Hl as [Hc Hl]. apply andb_prop in Hc as [Hc _].
    apply negb_true_iff in Hc. simpl. rewrite Hc, IH by (simpl in Hn; lia || exact Hl).
    reflexivity.
Qed.

Lemma fgets_read_last (n : nat) (l : string) :
  line_ok l = true -> (String.length l <= n)%nat -> CMain.fgets_read n l = (l, "").
Proof.
  revert n. induction l as [|c l IH]; intros n Hl Hn.
  - destruct n; reflexivity.
  - destruct n as [|n]; [simpl in Hn; lia|].
    simpl in Hl. apply andb_prop in Hl as [Hc Hl]. apply andb_prop in Hc as [Hc _].
    apply negb_true_iff in Hc. simpl. rewrite Hc, IH by (simpl in Hn; lia || exact Hl).
    reflexivity.
Qed.

Lemma strlen_line (l x : string) :
  line_ok l = true -> CMain.strlen (l ++ x) = (String.length l + CMain.strlen x)%nat.
Proof.
  induction l as [|c l IH]; intro Hl; [reflexivity|].
  simpl in Hl. apply andb_prop in Hl as [Hc Hl]. apply andb_prop in Hc as [_ Hc].
  apply negb_true_iff in Hc. simpl. rewrite Hc, IH by exact Hl. reflexivity.
Qed.

Lemma substring_prefix (l x : string) : substring 0 (String.length l) (l ++ x) = l.
Proof.
  induction l as [|c l IH]; simpl; [destruct x; reflexivity|rewrite IH; reflexivity].
Qed.

Lemma chop_line (l : string) : line_ok l = true -> CMain.chop (l ++ String "010" "") = Some l.
Proof.
  intro Hl. unfold CMain.chop. rewrite strlen_line by exact Hl. simpl.
  rewrite Nat.add_1_r, substring_prefix. reflexivity.
Qed.

Lemma chop_last (l : string) :
  line_ok l = true -> l <> "" ->
  CMain.chop l = Some (substring 0 (String.length l - 1) l).
Proof.
  intros Hl Hne. unfold CMain.chop.
  rewrite <- (append_nil_str l) at 1. rewrite strlen_line by exact Hl. simpl.
  destruct l as [|c l]; [contradiction|]. simpl. rewrite Nat.add_0_r, Nat.sub_0_r. reflexivity.
Qed.

Lemma main_loop_lines (ls : list string) (last : string) (fuel : nat) (s : Seg.stack)
  (cmd : rpn_cmd) :
  Forall (fun l => line_ok l = true /\ (String.length l <= 1022)%nat) ls ->
  line_ok last = true -> (String.length last <= 1023)%nat ->
  (String.length (join_lines ls ++ last) < fuel)%nat ->
  CMain.main_loop fuel s cmd (join_lines ls ++ last) =
  CEval.main_rounds s cmd
    (ls ++ match last with "" => [] | _ => [substring 0 (String.length last - 1) last] end).
Proof.
  intros Hls Hlast Hlen. revert fuel s cmd.
  induction Hls as [|l ls [Hl Hll] Hls IH]; intros fuel s cmd Hf.
  - destruct fuel as [|fuel]; [simpl in Hf; lia|]. simpl join_lines. simpl app.
    destruct last as [|c r] eqn:Hq; [reflexivity|]. rewrite <- Hq in *.
    cbn [CMain.main_loop]. rewrite fgets_nonempty by (rewrite Hq; discriminate).
    rewrite fgets_read_last by (exact Hlast || (unfold CMain.STDIN_BUF_SIZE; simpl; lia)).
    rewrite chop_last by (exact Hlast || (rewrite Hq; discriminate)).
    cbn [CEval.main_rounds].
    destruct (CEval.main_round s cmd _) as [[s' cmd' out|]|]; try reflexivity.
    destruct fuel as [|fuel]; [rewrite Hq in Hf; simpl in Hf; lia|].
    reflexivity.
  - destruct fuel as [|fuel]; [simpl in Hf; lia|].
    cbn [join_lines] in *. rewrite append_assoc_str in *. cbn [String.append] in *.
    rewrite <- app_comm_cons.
    cbn [CMain.main_loop]. rewrite fgets_nonempty by (destruct l; discriminate).
    rewrite fgets_read_line by (exact Hl || (unfold CMain.STDIN_BUF_SIZE; simpl; lia)).
    rewrite chop_line by exact Hl. cbn [CEval.main_rounds].
    destruct (CEval.main_round s cmd l) as [[s' cmd' out|]|]; try reflexivity.
    rewrite IH; [reflexivity|].
    rewrite ParseMore.length_app_str in Hf |- *. simpl in Hf. rewrite ParseMore.length_app_str in Hf. simpl in Hf. lia.
Qed.

(** X13: on input made of lines that hold no newline and no NUL, each of at
    most 1022 characters and ended by a newline, the C [main] runs one
    round per line, in order; a last line with no newline (at most 1023
    characters) loses its last character to [buf[strlen(buf) - 1] = 0]. *)
Theorem main_reads_lines (cmd : rpn_cmd) (ls : list string) (last : string) :
  Forall (fun l => line_ok l = true /\ (String.length l <= 1022)%nat) ls ->
  line_ok last = true -> (String.length last <= 1023)%nat ->
  CMain.main cmd (join_lines ls ++ last) =
  CEval.main_rounds Seg.stack_init cmd
    (ls ++ match last with "" => [] | _ => [substring 0 (String.length last - 1) last] end).
Proof. intros Hls Hl Hn. apply main_loop_lines; [exact Hls|exact Hl|exact Hn|lia]. Qed.

(** ["1\n2\n+x"]: the last line is read as ["+"] *)
Lemma main_reads_lines_witness :
  CMain.main CCEval.cmd0 (join_lines ["1"; "2"] ++ "+x") =
    CEval.main_rounds Seg.stack_init CCEval.cmd0 (["1"; "2"] ++ ["+"]) /\
  Observe.shown (CMain.main CCEval.cmd0 ("1" ++ String "010" ("2" ++ String "010" "+x")))
    = Some [3%float].
Proof.
  split; [|vm_compute; reflexivity].
  apply (main_reads_lines CCEval.cmd0 ["1"; "2"] "+x");
    [repeat constructor | reflexivity | simpl; lia].
Defined.

End MainMore.
